(** * espells: dictionary entries, affix forms and tagged words

    A shallow embedding of [src/dic/word.ts], [src/lookup/forms.ts] and
    [src/lookup/lk-word.ts], and the properties of these classes.

    Conventions of the embedding.
    - A JavaScript string is a [string]; every operation used by the
      sources (indexing, [slice], [startsWith], [endsWith], [includes],
      [split], [replaceAll], concatenation) works position by position, so
      the size of a code unit plays no role.
    - A JavaScript number used as an index is a [Z]; [undefined] is [None].
    - [Map] is a [gmap]; a [Set] of strings that is only tested for
      membership is a [gset]; a [Set] that is iterated is the [list] of its
      elements in insertion order.
    - Objects compared by identity ([Set] objects held in a [Map] or in
      another [Set], affix rules, affix forms) live in a store and are
      named by a location. *)

From Stdlib Require Import ZArith Lia Ascii DecimalString.
From stdpp Require Import base option gmap strings list.

Local Open Scope Z_scope.

(** A location names an object of a store; the store is a list and a
    fresh object is appended to it. *)
Abbreviation loc := nat (only parsing).

Definition alloc {A} (σ : list A) (x : A) : loc * list A :=
  (length σ, σ ++ [x]).

(** ** JavaScript string primitives *)
Module JS.

(** [s[i]]: the one-character string at index [i], [undefined] out of
    range (a negative [i] names the property ["-1"], which no string
    has). *)
Definition index (s : string) (i : Z) : option string :=
  if i <? 0 then None
  else match String.get (Z.to_nat i) s with
       | Some c => Some (String c "")
       | None => None
       end.

(** Relative index of [slice]: negative counts from the end, and the
    result is clamped to [0 .. len]. *)
Definition clamp (len i : Z) : Z :=
  if i <? 0 then Z.max (len + i) 0 else Z.min i len.

(** [s.slice(start, end)]; [end] is [None] when the argument is left
    out. *)
Definition slice (s : string) (start : Z) (end_ : option Z) : string :=
  let len := Z.of_nat (String.length s) in
  let from := clamp len start in
  let to := match end_ with Some e => clamp len e | None => len end in
  String.substring (Z.to_nat from) (Z.to_nat (to - from)) s.

(** [s.startsWith(t)] *)
Definition startsWith (s t : string) : bool := String.prefix t s.

(** [s.endsWith(t)] *)
Definition endsWith (s t : string) : bool :=
  let n := String.length s in
  let k := String.length t in
  if (k <=? n)%nat then String.eqb (String.substring (n - k) k s) t
  else false.

(** [s.includes(t)] *)
Fixpoint includes (s t : string) : bool :=
  String.prefix t s ||
  match s with
  | EmptyString => false
  | String _ s' => includes s' t
  end.

(** [s.split(sep)] for a non-empty separator string: the pieces between
    the occurrences of [sep], found from the left without overlap.
    [skip] counts the characters of a matched separator that are still
    to be passed over, [cur] is the piece under construction. *)
Fixpoint split_from (sep : string) (skip : nat) (cur s : string)
  : list string :=
  match s with
  | EmptyString => [cur]
  | String c s' =>
      match skip with
      | S k => split_from sep k cur s'
      | O =>
          if String.prefix sep s
          then cur :: split_from sep (String.length sep - 1) "" s'
          else split_from sep 0 (cur +:+ String c "") s'
      end
  end.

Definition split (s sep : string) : list string := split_from sep 0 "" s.

(** [s.replaceAll(pat, rep)] for a non-empty pattern string. *)
Fixpoint replaceAll_from (pat rep : string) (skip : nat) (s : string)
  : string :=
  match s with
  | EmptyString => ""
  | String c s' =>
      match skip with
      | S k => replaceAll_from pat rep k s'
      | O =>
          if String.prefix pat s
          then rep +:+ replaceAll_from pat rep (String.length pat - 1) s'
          else String c (replaceAll_from pat rep 0 s')
      end
  end.

Definition replaceAll (s pat rep : string) : string :=
  replaceAll_from pat rep 0 s.

(** [/^\d+$/.test(s)] *)
Definition is_digit (c : Ascii.ascii) : bool :=
  let n := Ascii.nat_of_ascii c in ((48 <=? n) && (n <=? 57))%nat.

Fixpoint all_digits (s : string) : bool :=
  match s with
  | EmptyString => true
  | String c s' => is_digit c && all_digits s'
  end.

Definition test_digits (s : string) : bool :=
  match s with EmptyString => false | _ => all_digits s end.

(** [parseInt(s)] on a string of decimal digits. The value is kept
    exact; JavaScript rounds above 2^53, where no array index lives. *)
Fixpoint parseInt_from (acc : Z) (s : string) : Z :=
  match s with
  | EmptyString => acc
  | String c s' =>
      parseInt_from (10 * acc + (Z.of_nat (Ascii.nat_of_ascii c) - 48)) s'
  end.

Definition parseInt (s : string) : Z := parseInt_from 0 s.

(** [arr[i]] on an array. *)
Definition array_get {A} (arr : list A) (i : Z) : option A :=
  if i <? 0 then None else arr !! Z.to_nat i.

(** The decimal name of an array index, as [for ... in] yields it. *)
Definition index_name (i : nat) : string :=
  NilEmpty.string_of_uint (Nat.to_uint i).

End JS.


(** ** The rule set, as far as the three classes use it *)

(** A flag is an opaque rule identifier; the sources pass it as a string. *)
Abbreviation Flag := string (only parsing).

(** [Flags = Set<Flag>], in iteration order. *)
Abbreviation Flags := (list string) (only parsing).

(** Modelled from the spec: [CapType] of [src/constants.ts], which is not
    part of these sources: no capitals, initial capital, all capitals, and
    the two mixed variants. *)
Inductive CapType := NO | INIT | ALL | HUHINIT | HUH.

(** Modelled from the spec: [CompoundPos] of [src/constants.ts]: the slot
    of a word in a compound. *)
Inductive CompoundPos := BEGIN | MIDDLE | END.

Module Affix.

(** Modelled from the spec: the affix rule class of [src/aff/affix.ts],
    which is not part of these sources. A rule exposes the text it
    strips, the text it adds, its cross-product eligibility, the flags it
    contributes and its applicability predicate on a stem. *)
Record t := {
  strip : string;
  add : string;
  crossproduct : bool;
  flags : Flags;
  relevant : string → bool
}.

(** [affix.has(flag)]: the rule carries the flag. *)
Definition has (a : t) (flag : Flag) : bool := bool_decide (flag ∈ flags a).

End Affix.

(** Prefix and suffix rules are objects of the rule set; the classes hold
    references to them. *)
Abbreviation Prefix := nat (only parsing).
Abbreviation Suffix := nat (only parsing).

(** Modelled from the spec: [RepPattern] of [src/aff/rep-pattern.ts], a
    replacement pair [(from, to)]. *)
Record RepPattern := { rep_from : string; rep_to : string }.

(** Modelled from the spec: an entry of the morphology-alias table [AM]
    of [src/aff/index.ts], which is not part of these sources. It is the
    JavaScript object that [for ... in] walks: a [Set] (the spec's table
    of component-string sets) or an array of the component strings. *)
Inductive AliasEntry :=
| AliasSet (components : list string)
| AliasArray (components : list string).

(** The keys [for (const k in obj)] enumerates: the enumerable string
    property names. A [Set] has none (its elements are not properties);
    an array has its indices. *)
Definition for_in_keys (e : AliasEntry) : list string :=
  match e with
  | AliasSet _ => []
  | AliasArray xs => JS.index_name <$> seq 0 (length xs)
  end.

Module Aff.

(** Modelled from the spec: the rule set [Aff] of [src/aff/index.ts],
    which is not part of these sources, as far as [Word] reads and writes
    it. [PFX] and [SFX] are [Map<Flag, Set<Prefix>>]: the rules of a flag
    in the set's insertion order, each a reference resolved by [rule].
    [REP] is a collection of [RepPattern] objects built by [new], so
    [add] always appends. *)
Record t := {
  ignore : string → string;
  casing_guess : string → CapType;
  parseFlags : string → Flags;
  PFX : gmap Flag (list Prefix);
  SFX : gmap Flag (list Suffix);
  rule : loc → Affix.t;
  REP : list RepPattern;
  AM : list AliasEntry
}.

(** [aff.REP.add(p)] *)
Definition REP_add (p : RepPattern) (aff : t) : t :=
  {| ignore := ignore aff; casing_guess := casing_guess aff;
     parseFlags := parseFlags aff; PFX := PFX aff; SFX := SFX aff;
     rule := rule aff; REP := REP aff ++ [p]; AM := AM aff |}.

End Aff.

(** ** [LKWord] ([src/lookup/lk-word.ts]) *)
Module LKWord.

(** [aff] and [dic] are references to shared objects. The methods
    [replace] and [replaceAll] take a regular expression and are left
    out. *)
Record t := {
  aff : loc;
  dic : loc;
  word : string;
  type : CapType;
  pos : option CompoundPos
}.

(** [to(word, captype = this.type)] *)
Definition to (this : t) (w : string) (captype : option CapType) : t :=
  {| aff := aff this; dic := dic this; word := w;
     type := default (type this) captype; pos := pos this |}.

(** [shift(pos)] *)
Definition shift (this : t) (p : CompoundPos) : t :=
  {| aff := aff this; dic := dic this; word := word this;
     type := type this; pos := Some p |}.

(** [slice(from?, to?)]; a start left out is 0. *)
Definition slice (this : t) (from to_ : option Z) : t :=
  to this (JS.slice (word this) (default 0 from) to_) None.

(** [add(str)] with a string or another [LKWord]. *)
Definition add (this : t) (str : string + t) : t :=
  let str := match str with inl s => s | inr w => word w end in
  to this (word this +:+ str) None.

(** [at(n)]: [word[length + n]] for a negative [n], [word[n]]
    otherwise. *)
Definition at_ (this : t) (n : Z) : option string :=
  if n <? 0 then JS.index (word this) (Z.of_nat (String.length (word this)) + n)
  else JS.index (word this) n.

(** [get length()] *)
Definition length (this : t) : nat := String.length (word this).

End LKWord.

(** ** [AffixForm] ([src/lookup/forms.ts]) *)

(** [a ?? b] where both sides may be [undefined]. *)
Definition nullish {A} (a b : option A) : option A :=
  match a with Some x => Some x | None => b end.

Module AffixForm.

(** [AffixFormOpts]; a property that is left out or [undefined] is
    [None]. [inDictionary] is a reference to a [Word]. The getter [flags]
    needs [concat] of [src/util.ts] and is left out. *)
Record Opts := {
  o_prefix : option Prefix;
  o_suffix : option Suffix;
  o_prefix2 : option Prefix;
  o_suffix2 : option Suffix;
  o_inDictionary : option loc
}.

Definition no_opts : Opts :=
  {| o_prefix := None; o_suffix := None; o_prefix2 := None;
     o_suffix2 := None; o_inDictionary := None |}.

Record t := {
  text : string;
  stem : string;
  prefix : option Prefix;
  suffix : option Suffix;
  prefix2 : option Prefix;
  suffix2 : option Suffix;
  inDictionary : option loc
}.

(** [constructor(text, stem?, opts = {})] *)
Definition new (txt : string + LKWord.t) (stm : option string)
    (opts : option Opts) : t :=
  let opts := default no_opts opts in
  let txt := match txt with inl s => s | inr w => LKWord.word w end in
  {| text := txt; stem := default txt stm;
     prefix := o_prefix opts; suffix := o_suffix opts;
     prefix2 := o_prefix2 opts; suffix2 := o_suffix2 opts;
     inDictionary := o_inDictionary opts |}.

(** The argument of [replace]:
    [{ text?: string | LKWord; stem?: string } & AffixFormOpts]. *)
Record ReplaceOpts := {
  r_text : option (string + LKWord.t);
  r_stem : option string;
  r_opts : Opts
}.

(** [replace(opts)]: the object it builds. *)
Definition replace (this : t) (opts : ReplaceOpts) : t :=
  let o := r_opts opts in
  new (default (inl (text this)) (r_text opts))
      (Some (default (stem this) (r_stem opts)))
      (Some {| o_prefix := nullish (o_prefix o) (prefix this);
               o_suffix := nullish (o_suffix o) (suffix this);
               o_prefix2 := nullish (o_prefix2 o) (prefix2 this);
               o_suffix2 := nullish (o_suffix2 o) (suffix2 this);
               o_inDictionary :=
                 nullish (o_inDictionary o) (inDictionary this) |}).

(** [h.replace(opts)] in a store of forms: [new] allocates the result and
    nothing is written to [h]. [None] only for a dangling [h]. *)
Definition replace_in (σ : list t) (h : loc) (opts : ReplaceOpts)
  : option (loc * list t) :=
  this ← σ !! h;
  Some (alloc σ (replace this opts)).

(** [get hasAffixes()]: [Boolean(this.suffix || this.prefix)]; an object
    is truthy, [undefined] is not. *)
Definition hasAffixes (this : t) : bool :=
  bool_decide (is_Some (nullish (suffix this) (prefix this))).

(** [affixes()]: the present ones of
    [[prefix2, prefix, suffix, suffix2]]. *)
Definition affixes (this : t) : list loc :=
  omap id [prefix2 this; prefix this; suffix this; suffix2 this].

(** [has(flag)]; [rule] resolves a rule reference. *)
Definition has (rule : loc → Affix.t) (this : t) (flag : Flag) : bool :=
  if negb (hasAffixes this) then false
  else forallb (λ affix, Affix.has (rule affix) flag) (affixes this).

End AffixForm.

(** ** [Word] ([src/dic/word.ts]) *)

(** A string is truthy when it is present and not empty. *)
Definition truthy (s : option string) : option string :=
  match s with
  | Some EmptyString | None => None
  | Some s => Some s
  end.

(** [iterate(xs).toSet()] and [new Set(xs)]: the first occurrence of each
    element, in order. Elements that are objects are compared as
    references. *)
Definition toSet `{EqDecision A} (xs : list A) : list A :=
  reverse (remove_dups (reverse xs)).

Module Word.

(** The constructor returns or throws a [SyntaxError]. *)
Inductive Result (A : Type) :=
| Ok (a : A)
| SyntaxError (msg : string).
Arguments Ok {A} a.
Arguments SyntaxError {A} msg.

(** The fields of a [Word]. [data] is a [Map<string, Set<string>>]: its
    values are references to [Set] objects, which [sets] holds. The field
    [aff] is a reference to the shared rule set, which the methods take as
    an argument; [affixes] is declared and never assigned. *)
Record t := {
  stem : string;
  capType : CapType;
  flags : option Flags;
  data : option (gmap string loc);
  sets : list (gset string);
  altSpellings : option (gset string)
}.

(** [word.data.get(k)], with the [Set] object resolved. *)
Definition data_get (w : t) (k : string) : option (gset string) :=
  d ← data w; l ← d !! k; sets w !! l.

Definition with_data (d : gmap string loc) (σ : list (gset string)) (w : t)
  : t :=
  {| stem := stem w; capType := capType w; flags := flags w;
     data := Some d; sets := σ; altSpellings := altSpellings w |}.

(** [this.data ??= new Map()]
    [const set = this.data.get(k_get) ?? new Set()]
    [this.data.set(k_set, set.add(v))] *)
Definition data_add (k_get k_set v : string) (w : t) : t :=
  let d := default ∅ (data w) in
  let '(l, σ) :=
    match d !! k_get with
    | Some l => (l, sets w)
    | None => alloc (sets w) ∅
    end in
  with_data (<[k_set := l]> d) (alter (λ s, s ∪ {[v]}) l σ) w.

(** [this.altSpellings ??= new Set(); this.altSpellings.add(v)] *)
Definition altSpellings_add (v : string) (w : t) : t :=
  {| stem := stem w; capType := capType w; flags := flags w;
     data := data w; sets := sets w;
     altSpellings := Some (default ∅ (altSpellings w) ∪ {[v]}) |}.

(** The body of [if (key === "ph")], lines 77 to 91. *)
Definition ph (value : string) (st : t * Aff.t) : t * Aff.t :=
  let '(w, aff) := st in
  if JS.endsWith value "*" then
    (w, Aff.REP_add {| rep_from := JS.slice value 0 (Some (-2));
                       rep_to := JS.slice (stem w) 0 (Some (-1)) |} aff)
  else if JS.includes value "->" then
    match JS.split value "->" with
    | from :: to :: _ =>
        (w, Aff.REP_add {| rep_from := from; rep_to := to |} aff)
    | _ => (w, aff) (* no such case: [includes] gives two pieces *)
    end
  else
    (altSpellings_add value w,
     Aff.REP_add {| rep_from := value; rep_to := stem w |} aff).

Section Constructor.

(** [C.SPLIT_WORD_REGEX.exec(line)]: the groups stem, flags and data of
    a match; [src/constants.ts] is not part of these sources. *)
Variable SPLIT_WORD_REGEX :
  string → option (string * option string * option string).

(** [C.SPLIT_DATA_REGEX.exec(keyvalue)]: the groups key and value. *)
Variable SPLIT_DATA_REGEX : string → option (string * string).

(** [split] of [src/util.ts]. *)
Variable split : string → list string.

(** The body of the loop over the data tokens, lines 64 to 101. *)
Definition token (keyvalue : string) (st : t * Aff.t) : t * Aff.t :=
  match SPLIT_DATA_REGEX keyvalue with
  | Some (key, value) =>
      let st := (data_add value key value st.1, st.2) in
      if String.eqb key "ph" then ph value st else st
  | None =>
      if JS.test_digits keyvalue then
        match JS.array_get (Aff.AM st.2) (JS.parseInt keyvalue - 1) with
        | Some e =>
            (foldl (λ w str, data_add keyvalue keyvalue str w) st.1
               (for_in_keys e), st.2)
        | None => st
        end
      else st
  end.

Definition tokens (kvs : list string) (st : t * Aff.t) : t * Aff.t :=
  foldl (λ st kv, token kv st) st kvs.

(** [new Word(line, aff)]: the word and the rule set after it. *)
Definition new (line : string) (aff : Aff.t) : Result (t * Aff.t) :=
  let line := JS.replaceAll line "\/" "_||_" in
  match SPLIT_WORD_REGEX line with
  | None => SyntaxError ("Invalid line in dictionary '" +:+ line +:+ "'")
  | Some (stm, fl, dat) =>
      let stm := JS.replaceAll stm "_||_" "/" in
      let stm := Aff.ignore aff stm in
      let w := {| stem := stm; capType := Aff.casing_guess aff stm;
                  flags := Aff.parseFlags aff <$> truthy fl;
                  data := None; sets := []; altSpellings := None |} in
      match truthy dat with
      | Some dat => Ok (tokens (split dat) (w, aff))
      | None => Ok (w, aff)
      end
  end.

End Constructor.

(** [has(flag?)] *)
Definition has (this : t) (flag : option Flag) : bool :=
  match flag with
  | None => false
  | Some f =>
      match flags this with
      | Some fl => bool_decide (f ∈ fl)
      | None => false
      end
  end.

(** The rules of [table] that the flags license and that are relevant to
    the stem: [iterate(flags).filter(has).map(get).flatten()
    .filter(relevant).toSet()]. *)
Definition candidates (table : gmap Flag (list loc)) (rule : loc → Affix.t)
    (fl : Flags) (stm : string) : list loc :=
  toSet (List.filter (λ r, Affix.relevant (rule r) stm)
           (concat (omap (λ f, table !! f) fl))).

(** [similarTo ? test(similarTo) : true] *)
Definition similar (similarTo : option string) (test : string → bool)
  : bool :=
  match truthy similarTo with
  | Some s => test s
  | None => true
  end.

Section Forms.

Variable aff : Aff.t.
Variable this : t.
Variable similarTo : option string.

Definition suffixes (fl : Flags) : list Suffix :=
  List.filter
    (λ s, similar similarTo (λ sim, JS.endsWith sim (Affix.add (Aff.rule aff s))))
    (candidates (Aff.SFX aff) (Aff.rule aff) fl (stem this)).

Definition prefixes (fl : Flags) : list Prefix :=
  List.filter
    (λ p, similar similarTo
            (λ sim, JS.startsWith sim (Affix.add (Aff.rule aff p))))
    (candidates (Aff.PFX aff) (Aff.rule aff) fl (stem this)).

Definition cross (fl : Flags) : list (Prefix * Suffix) :=
  concat
    ((λ p,
       (λ s, (p, s))
         <$> List.filter
               (λ s, Affix.crossproduct (Aff.rule aff s)
                     && Affix.crossproduct (Aff.rule aff p))
               (suffixes fl))
       <$> prefixes fl).

Definition strip_length (r : loc) : Z :=
  Z.of_nat (String.length (Affix.strip (Aff.rule aff r))).

(** Line 162: a non-empty strip is truthy. *)
Definition suffix_form (s : Suffix) : string :=
  let root :=
    match truthy (Some (Affix.strip (Aff.rule aff s))) with
    | Some _ => JS.slice (stem this) 0 (Some (- strip_length s))
    | None => stem this
    end in
  root +:+ Affix.add (Aff.rule aff s).

(** Lines 167 to 170. *)
Definition cross_form (ps : Prefix * Suffix) : string :=
  let '(p, s) := ps in
  let root :=
    match truthy (Some (Affix.strip (Aff.rule aff s))) with
    | Some _ =>
        JS.slice (stem this) (strip_length p) (Some (- strip_length s))
    | None => JS.slice (stem this) (strip_length p) None
    end in
  Affix.add (Aff.rule aff p) +:+ root +:+ Affix.add (Aff.rule aff s).

(** Lines 174 and 175. *)
Definition prefix_form (p : Prefix) : string :=
  let root := JS.slice (stem this) (strip_length p) None in
  Affix.add (Aff.rule aff p) +:+ root.

(** [forms(similarTo?)] *)
Definition forms : list string :=
  match flags this with
  | None => [stem this]
  | Some fl =>
      [stem this]
      ++ (suffix_form <$> suffixes fl)
      ++ (cross_form <$> cross fl)
      ++ (prefix_form <$> prefixes fl)
  end.

End Forms.

(** [static flagSets(words)]. Each [new Set(word.flags!)] is a fresh
    object of the store [σ]; the outer [new Set(...)] keeps one element
    per object, since a [Set] compares objects by identity. The result is
    the outer set, as references in insertion order, and the store. *)
Definition flagSets (σ : list Flags) (words : list t)
  : list loc * list Flags :=
  let flagged := omap flags words in
  let '(refs, σ) :=
    foldl (λ acc fl,
             let '(l, σ) := alloc acc.2 (toSet fl) in (acc.1 ++ [l], σ))
          ([], σ) flagged in
  (toSet refs, σ).

End Word.

(** ** The line grammar and a sample rule set *)
Module Grammar.

(** The longest prefix of [s] without a character satisfying [p], and
    the rest. *)
Fixpoint break (p : Ascii.ascii → bool) (s : string) : string * string :=
  match s with
  | EmptyString => ("", "")
  | String c s' =>
      if p c then ("", s)
      else let '(a, b) := break p s' in (String c a, b)
  end.

Definition is_space (c : Ascii.ascii) : bool :=
  Ascii.eqb c " "%char || Ascii.eqb c (Ascii.ascii_of_nat 9).

Definition is_char (d c : Ascii.ascii) : bool := Ascii.eqb c d.

(** Modelled from the spec: [SPLIT_WORD_REGEX] of [src/constants.ts], for
    the line grammar [STEM[/FLAGS] [KEY:VALUE ...]]: the stem runs to the
    first slash or white space, the flags to the first white space, the
    data is what follows it. *)
Definition SPLIT_WORD_REGEX (line : string)
  : option (string * option string * option string) :=
  let '(head, rest) := break is_space line in
  let '(stm, fl) := break (is_char "/"%char) head in
  match stm with
  | EmptyString => None
  | _ =>
      Some (stm,
            match fl with String _ f => Some f | EmptyString => None end,
            match rest with String _ d => Some d | EmptyString => None end)
  end.

(** Modelled from the spec: [SPLIT_DATA_REGEX] of [src/constants.ts], for
    a token [KEY:VALUE]: a key, a colon, a value, neither empty. *)
Definition SPLIT_DATA_REGEX (keyvalue : string) : option (string * string) :=
  match break (is_char ":"%char) keyvalue with
  | (String _ _ as key, String _ (String _ _ as value)) => Some (key, value)
  | _ => None
  end.

(** Modelled from the spec: [split] of [src/util.ts], which splits the
    data segment on white space into its tokens. *)
Fixpoint split_from (cur s : string) : list string :=
  match s with
  | EmptyString => match cur with EmptyString => [] | _ => [cur] end
  | String c s' =>
      if is_space c
      then match cur with
           | EmptyString => split_from "" s'
           | _ => cur :: split_from "" s'
           end
      else split_from (cur +:+ String c "") s'
  end.

Definition split (s : string) : list string := split_from "" s.

(** Flags written as single characters. *)
Fixpoint parseFlags (s : string) : Flags :=
  match s with
  | EmptyString => []
  | String c s' => toSet (String c "" :: parseFlags s')
  end.

End Grammar.

(** [new Word(line, aff)] under the grammar above. *)
Definition Word_new : string → Aff.t → Word.Result (Word.t * Aff.t) :=
  Word.new Grammar.SPLIT_WORD_REGEX Grammar.SPLIT_DATA_REGEX Grammar.split.

Module Sample.

(** A prefix [un-] and a suffix [-ly] that apply to every stem. *)
Definition un (x : bool) : Affix.t :=
  {| Affix.strip := ""; Affix.add := "un"; Affix.crossproduct := x;
     Affix.flags := []; Affix.relevant := λ _, true |}.

Definition ly (x : bool) : Affix.t :=
  {| Affix.strip := ""; Affix.add := "ly"; Affix.crossproduct := x;
     Affix.flags := []; Affix.relevant := λ _, true |}.

(** A rule set with the rule objects [rules], prefixes under the flags of
    [pfx] and suffixes under those of [sfx]. *)
Definition aff (rules : list Affix.t) (pfx sfx : gmap Flag (list loc))
    (am : list AliasEntry) : Aff.t :=
  {| Aff.ignore := λ s, s; Aff.casing_guess := λ _, NO;
     Aff.parseFlags := Grammar.parseFlags;
     Aff.PFX := pfx; Aff.SFX := sfx;
     Aff.rule := λ l, default (un false) (rules !! l);
     Aff.REP := []; Aff.AM := am |}.

(** Flag [A] licenses [un-], flag [B] licenses [-ly]. *)
Definition un_ly (xp xs : bool) : Aff.t :=
  aff [un xp; ly xs] {[ "A" := [0%nat] ]} {[ "B" := [1%nat] ]} [].

(** As [un_ly false true], with a second, eligible [un-] under flag
    [C]. *)
Definition un_un_ly : Aff.t :=
  aff [un false; ly true; un true]
      {[ "A" := [0%nat]; "C" := [2%nat] ]} {[ "B" := [1%nat] ]} [].

Definition plain : Aff.t := aff [] ∅ ∅ [].

(** One morphology alias, with the single component [st:cat]. *)
Definition alias_set : Aff.t := aff [] ∅ ∅ [AliasSet ["st:cat"]].

(** The word of a line that parses. *)
Definition word_of (r : Word.Result (Word.t * Aff.t)) : option Word.t :=
  match r with Word.Ok (w, _) => Some w | Word.SyntaxError _ => None end.

Definition aff_of (r : Word.Result (Word.t * Aff.t)) : option Aff.t :=
  match r with Word.Ok (_, a) => Some a | Word.SyntaxError _ => None end.

(** A handle on the word [cat]. *)
Definition cat_handle : LKWord.t :=
  {| LKWord.aff := 0%nat; LKWord.dic := 0%nat; LKWord.word := "cat";
     LKWord.type := NO; LKWord.pos := None |}.

(** Rule objects for affix forms: rule 0 carries no flag, rule 1 carries
    the flag [F]. *)
Definition flagged_rule (l : loc) : Affix.t :=
  {| Affix.strip := ""; Affix.add := "s"; Affix.crossproduct := true;
     Affix.flags := match l with 1%nat => ["F"] | _ => [] end;
     Affix.relevant := λ _, true |}.

(** The form of [cats] with the given outer suffix. *)
Definition cats (sfx : option Suffix) : AffixForm.t :=
  AffixForm.new (inl "cats") (Some "cat")
    (Some {| AffixForm.o_prefix := None; AffixForm.o_suffix := sfx;
             AffixForm.o_prefix2 := None; AffixForm.o_suffix2 := None;
             AffixForm.o_inDictionary := None |}).

(** The overrides [{ stem: "x" }]. *)
Definition stem_x : AffixForm.ReplaceOpts :=
  {| AffixForm.r_text := None; AffixForm.r_stem := Some "x";
     AffixForm.r_opts := AffixForm.no_opts |}.

(** A dictionary entry with the given stem and flags, and no data. *)
Definition entry (stm : string) (fl : option Flags) : Word.t :=
  {| Word.stem := stm; Word.capType := NO; Word.flags := fl;
     Word.data := None; Word.sets := []; Word.altSpellings := None |}.

End Sample.

(** ** [AffixForm]: the getter [flags] *)
Module AffixFormFlags.

Section Flags.

(** [concat] of [src/util.ts], which is not part of these sources. *)
Variable concat : list string → list string → list string.

(** The rule objects and the [Word] objects that references resolve to. *)
Variable rule : loc → Affix.t.
Variable word : loc → Word.t.

(** [get flags()], lines 95 to 100. *)
Definition flags (this : AffixForm.t) : Flags :=
  let flags :=
    default [] (AffixForm.inDictionary this ≫= λ l, Word.flags (word l)) in
  let flags :=
    match AffixForm.prefix this with
    | Some p => concat flags (Affix.flags (rule p))
    | None => flags
    end in
  match AffixForm.suffix this with
  | Some s => concat flags (Affix.flags (rule s))
  | None => flags
  end.

End Flags.

End AffixFormFlags.

(** ** [Dic] ([src/dic/index.ts]) *)
Module Dic.

(** A value of an index: a single [Word] or a [Set<Word>], the words
    being references and the set in insertion order. *)
Inductive Entry :=
| One (w : loc)
| Many (ws : list loc).

(** [words], [index] and [lowercaseIndex]. The values of the two maps
    are held by one map entry each ([getFromindex] hands out copies), so
    they are kept in the map. *)
Record t := {
  words : list loc;
  index : gmap string Entry;
  lowercaseIndex : gmap string Entry
}.

(** The fields of a new [Dic]. *)
Definition empty : t :=
  {| words := []; index := ∅; lowercaseIndex := ∅ |}.

(** [set.add(x)] and [set.delete(x)] on a [Set] of references. *)
Definition set_add (x : loc) (s : list loc) : list loc :=
  if decide (x ∈ s) then s else s ++ [x].

Definition set_delete (x : loc) (s : list loc) : list loc :=
  List.filter (λ y, negb (bool_decide (y = x))) s.

(** [addToIndex(index, stem, word)] *)
Definition addToIndex (idx : gmap string Entry) (stem : string) (word : loc)
  : gmap string Entry :=
  match idx !! stem with
  | Some (Many curr) => <[stem := Many (set_add word curr)]> idx
  | Some (One curr) => <[stem := Many (toSet [curr; word])]> idx
  | None => <[stem := One word]> idx
  end.

(** [getFromindex(index, stem)]: a new set each time. *)
Definition getFromindex (idx : gmap string Entry) (stem : string) : list loc :=
  match idx !! stem with
  | None => []
  | Some (Many ws) => toSet ws
  | Some (One w) => toSet [w]
  end.

(** [captype !== CapType.NO] *)
Definition not_NO (c : CapType) : bool :=
  match c with NO => false | _ => true end.

Section Methods.

(** The [Word] objects, which the index never writes to; the rule set,
    for [casing.guess]; and [casing.lower], which [Aff.t] does not
    hold. *)
Variable obj : loc → Word.t.
Variable aff : Aff.t.
Variable lower : string → list string.

(** [add(word)] *)
Definition add (d : t) (word : loc) : t :=
  let stem := Word.stem (obj word) in
  {| words := set_add word (words d);
     index := addToIndex (index d) stem word;
     lowercaseIndex :=
       if not_NO (Aff.casing_guess aff stem)
       then foldl (λ idx lowered, addToIndex idx lowered word)
              (lowercaseIndex d) (lower stem)
       else lowercaseIndex d |}.

(** [homonyms(stem, ignorecase = false)] *)
Definition homonyms (d : t) (stem : string) (ignorecase : bool) : list loc :=
  let words := getFromindex (index d) stem in
  if ignorecase
  then foldl (λ words lowered,
                foldl (λ words word, set_add word words) words
                  (getFromindex (lowercaseIndex d) lowered))
         words (lower stem)
  else words.

(** [remove(stem)]; the test [if (!words)] never succeeds, a [Set] being
    truthy. *)
Definition remove (d : t) (stem : string) : t :=
  let ws := homonyms d stem true in
  {| words := foldl (λ s word, set_delete word s) (words d) ws;
     index := delete stem (index d);
     lowercaseIndex :=
       foldl (λ idx lowered, delete lowered idx) (lowercaseIndex d)
         (lower stem) |}.

(** The loop of [hasFlag] over the homonyms, with its early returns;
    [flagged] is the variable of that name. *)
Fixpoint hasFlag_loop (flag : Flag) (all flagged : bool) (ws : list loc)
  : bool :=
  match ws with
  | [] => all && flagged
  | word :: ws =>
      let has := Word.has (obj word) (Some flag) in
      let flagged := if has then true else flagged in
      if all && negb has then false
      else if negb all && has then true
      else hasFlag_loop flag all flagged ws
  end.

(** [hasFlag(stem, flag?, all = false)] *)
Definition hasFlag (d : t) (stem : string) (flag : option Flag) (all : bool)
  : bool :=
  match flag with
  | None => false
  | Some f => hasFlag_loop f all false (homonyms d stem false)
  end.

End Methods.

End Dic.

(** ** Vocabulary of the statements *)

(** A field after an override: the override when one is given, the old
    value otherwise. *)
Definition carried {A} (override : option A) (old new : A) : Prop :=
  match override with Some v => new = v | None => new = old end.

(** The same for a field that may itself be absent. *)
Definition carried_opt {A} (override old new : option A) : Prop :=
  match override with Some v => new = Some v | None => new = old end.

(** The string a [text] argument stands for. *)
Definition text_of (txt : string + LKWord.t) : string :=
  match txt with inl s => s | inr w => LKWord.word w end.

(** [s] without its first [n] characters, and without its last [n]. *)
Definition drop_start (n : nat) (s : string) : string :=
  String.substring n (String.length s - n) s.

Definition drop_end (n : nat) (s : string) : string :=
  String.substring 0 (String.length s - n) s.

(** Set semantics by content for a result of [flagSets]: no two elements
    of the outer set hold the same flags. *)
Definition distinct_contents (r : list loc * list Flags) : Prop :=
  ∀ a b fa fb, a ∈ r.1 → b ∈ r.1 →
    r.2 !! a = Some fa → r.2 !! b = Some fb →
    (∀ f, f ∈ fa ↔ f ∈ fb) → a = b.

(** A flag of [fl] licenses the rule [r] of [table], and the rule applies
    to the stem. *)
Definition licensed (table : gmap Flag (list loc)) (rule : loc → Affix.t)
    (fl : Flags) (stm : string) (r : loc) : Prop :=
  ∃ f rs, f ∈ fl ∧ table !! f = Some rs ∧ r ∈ rs
          ∧ Affix.relevant (rule r) stm = true.

(** The stem with the strip of a prefix trimmed from the start and the
    strip of a suffix trimmed from the end. *)
Definition trimmed (aff : Aff.t) (stm : string) (p : option Prefix)
    (s : option Suffix) : string :=
  let strip r := String.length (Affix.strip (Aff.rule aff r)) in
  drop_end (from_option strip 0%nat s) (drop_start (from_option strip 0%nat p) stm).

(** The crossed form of a prefix and a suffix, in the words of the
    spec. *)
Definition crossed (aff : Aff.t) (stm : string) (p : Prefix) (s : Suffix)
  : string :=
  Affix.add (Aff.rule aff p) +:+ trimmed aff stm (Some p) (Some s)
  +:+ Affix.add (Aff.rule aff s).

(** Both rules are cross-product-eligible. *)
Definition eligible (aff : Aff.t) (p : Prefix) (s : Suffix) : Prop :=
  Affix.crossproduct (Aff.rule aff p) = true
  ∧ Affix.crossproduct (Aff.rule aff s) = true.

(** The crossed form is among the forms exactly when both rules are
    eligible. *)
Definition crossed_iff_eligible (aff : Aff.t) (w : Word.t) (p : Prefix)
    (s : Suffix) : Prop :=
  crossed aff (Word.stem w) p s ∈ Word.forms aff w None ↔ eligible aff p s.

(** The dictionary after [add] of the words [ws], in order, to a new
    one. *)
Definition Dic_of (obj : loc → Word.t) (aff : Aff.t)
    (lower : string → list string) (ws : list loc) : Dic.t :=
  foldl (Dic.add obj aff lower) Dic.empty ws.

(** The word [l] is indexed under a lowercase variant that [stem] also
    has: its stem is not all lowercase, and the two share a variant. *)
Definition lowercase_match (obj : loc → Word.t) (aff : Aff.t)
    (lower : string → list string) (stem : string) (l : loc) : Prop :=
  Dic.not_NO (Aff.casing_guess aff (Word.stem (obj l))) = true
  ∧ ∃ lowered, lowered ∈ lower stem ∧ lowered ∈ lower (Word.stem (obj l)).

(** The handles obtained from [w0] by any number of [to], [shift],
    [slice] and [add]. *)
Inductive LKWord_derived (w0 : LKWord.t) : LKWord.t → Prop :=
| derived_self : LKWord_derived w0 w0
| derived_to w s c :
    LKWord_derived w0 w → LKWord_derived w0 (LKWord.to w s c)
| derived_shift w p :
    LKWord_derived w0 w → LKWord_derived w0 (LKWord.shift w p)
| derived_slice w a b :
    LKWord_derived w0 w → LKWord_derived w0 (LKWord.slice w a b)
| derived_add w s :
    LKWord_derived w0 w → LKWord_derived w0 (LKWord.add w s).

(** The overrides [o2] laid over the overrides [o1]: each property of
    [o2] where it is given, that of [o1] otherwise. *)
Definition overrides_over (o2 o1 : AffixForm.ReplaceOpts)
  : AffixForm.ReplaceOpts :=
  {| AffixForm.r_text := nullish (AffixForm.r_text o2) (AffixForm.r_text o1);
     AffixForm.r_stem := nullish (AffixForm.r_stem o2) (AffixForm.r_stem o1);
     AffixForm.r_opts :=
       {| AffixForm.o_prefix :=
            nullish (AffixForm.o_prefix (AffixForm.r_opts o2))
                    (AffixForm.o_prefix (AffixForm.r_opts o1));
          AffixForm.o_suffix :=
            nullish (AffixForm.o_suffix (AffixForm.r_opts o2))
                    (AffixForm.o_suffix (AffixForm.r_opts o1));
          AffixForm.o_prefix2 :=
            nullish (AffixForm.o_prefix2 (AffixForm.r_opts o2))
                    (AffixForm.o_prefix2 (AffixForm.r_opts o1));
          AffixForm.o_suffix2 :=
            nullish (AffixForm.o_suffix2 (AffixForm.r_opts o2))
                    (AffixForm.o_suffix2 (AffixForm.r_opts o1));
          AffixForm.o_inDictionary :=
            nullish (AffixForm.o_inDictionary (AffixForm.r_opts o2))
                    (AffixForm.o_inDictionary (AffixForm.r_opts o1)) |} |}.

(** No overrides. *)
Definition no_overrides : AffixForm.ReplaceOpts :=
  {| AffixForm.r_text := None; AffixForm.r_stem := None;
     AffixForm.r_opts := AffixForm.no_opts |}.

(** The rule sets [a] and [a'] differ in [REP] at most. *)
Definition same_rules (a a' : Aff.t) : Prop :=
  Aff.ignore a' = Aff.ignore a ∧ Aff.casing_guess a' = Aff.casing_guess a
  ∧ Aff.parseFlags a' = Aff.parseFlags a ∧ Aff.PFX a' = Aff.PFX a
  ∧ Aff.SFX a' = Aff.SFX a ∧ Aff.rule a' = Aff.rule a ∧ Aff.AM a' = Aff.AM a.

(** The token is a [key:value] pair with the key [ph]. *)
Definition is_ph (SPLIT_DATA_REGEX : string → option (string * string))
    (tok : string) : bool :=
  match SPLIT_DATA_REGEX tok with
  | Some (key, _) => String.eqb key "ph"
  | None => false
  end.

(** The token is [ph:v] with a plain value [v]: no final star, no
    arrow. *)
Definition plain_ph (SPLIT_DATA_REGEX : string → option (string * string))
    (tok v : string) : Prop :=
  SPLIT_DATA_REGEX tok = Some ("ph", v)
  ∧ JS.endsWith v "*" = false ∧ JS.includes v "->" = false.

(** Every reference of [data] names a [Set] object of the word. *)
Definition data_wf (w : Word.t) : Prop :=
  ∀ k l, default ∅ (Word.data w) !! k = Some l →
         (l < length (Word.sets w))%nat.

(** [word.data.get(k).has(v)] *)
Definition data_has (w : Word.t) (k v : string) : Prop :=
  ∃ s, Word.data_get w k = Some s ∧ v ∈ s.

(** ** A sample dictionary *)
Module SampleDic.

(** Modelled from the spec: [casing.lower] and [casing.guess] of the rule
    set, for the letters A to Z: one lowercase variant, and a stem is not
    [NO] when lowering changes it. *)
Definition lower_char (c : Ascii.ascii) : Ascii.ascii :=
  let n := Ascii.nat_of_ascii c in
  if ((65 <=? n) && (n <=? 90))%nat then Ascii.ascii_of_nat (n + 32) else c.

Fixpoint lowercase (s : string) : string :=
  match s with
  | EmptyString => ""
  | String c s' => String (lower_char c) (lowercase s')
  end.

Definition lower (s : string) : list string := [lowercase s].

Definition aff : Aff.t :=
  {| Aff.ignore := λ s, s;
     Aff.casing_guess := λ s, if String.eqb (lowercase s) s then NO else HUH;
     Aff.parseFlags := Grammar.parseFlags;
     Aff.PFX := ∅; Aff.SFX := ∅; Aff.rule := λ _, Sample.un false;
     Aff.REP := []; Aff.AM := [] |}.

(** The [Word] objects: [cat] with flag [A], [Cat], a second [cat]
    without flags, and [dog]. *)
Definition obj (l : loc) : Word.t :=
  match l with
  | 0%nat => Sample.entry "cat" (Some ["A"])
  | 1%nat => Sample.entry "Cat" None
  | 2%nat => Sample.entry "cat" None
  | _ => Sample.entry "dog" None
  end.

(** The dictionary after [add] of the first three. *)
Definition dic : Dic.t := Dic_of obj aff lower [0%nat; 1%nat; 2%nat].

End SampleDic.

(** * Properties *)

(** ** Strings *)

Lemma get_lt (s : string) (n : nat) :
  (n < String.length s)%nat → ∃ c, String.get n s = Some c.
Proof.
  revert n. induction s as [|c s IH]; intros n Hn; simpl in *; [lia|].
  destruct n as [|n]; [eauto|]. apply IH. lia.
Qed.

Lemma get_ge (s : string) (n : nat) :
  (String.length s ≤ n)%nat → String.get n s = None.
Proof.
  revert n. induction s as [|c s IH]; intros n Hn; simpl in *.
  - by destruct n.
  - destruct n as [|n]; [lia|]. apply IH. lia.
Qed.

Example slice_examples :
  JS.slice "pretty" 0 (Some (-1)) = "prett"
  ∧ JS.slice "prity*" 0 (Some (-2)) = "prit"
  ∧ JS.slice "*" 0 (Some (-2)) = ""
  ∧ JS.slice "uncatly" 2 (Some (-2)) = "cat"
  ∧ JS.slice "cat" 5 None = "".
Proof. by vm_compute. Qed.

Example split_examples :
  JS.split "hepi->happi" "->" = ["hepi"; "happi"]
  ∧ JS.split "a->b->c" "->" = ["a"; "b"; "c"]
  ∧ JS.split "a-->b" "->" = ["a-"; "b"].
Proof. by vm_compute. Qed.

Example replaceAll_example :
  JS.replaceAll "a\/b\/c" "\/" "_||_" = "a_||_b_||_c".
Proof. by vm_compute. Qed.

Example grammar_examples :
  Grammar.SPLIT_WORD_REGEX "cat/AB is:a 1"
  = Some ("cat", Some "AB", Some "is:a 1")
  ∧ Grammar.split "is:a  1" = ["is:a"; "1"]
  ∧ Grammar.SPLIT_DATA_REGEX "ph:hepi->happi" = Some ("ph", "hepi->happi")
  ∧ Grammar.SPLIT_DATA_REGEX "1" = None.
Proof. by vm_compute. Qed.

Lemma index_in_range (s : string) (i : Z) :
  0 ≤ i < Z.of_nat (String.length s) →
  ∃ c, String.get (Z.to_nat i) s = Some c ∧ JS.index s i = Some (String c "").
Proof.
  intros Hi. unfold JS.index.
  destruct (Z.ltb_spec i 0) as [?|_]; [lia|].
  destruct (get_lt s (Z.to_nat i)) as [c Hc]; [lia|].
  exists c. by rewrite Hc.
Qed.

Lemma index_out_of_range (s : string) (i : Z) :
  i < 0 ∨ Z.of_nat (String.length s) ≤ i → JS.index s i = None.
Proof.
  intros Hi. unfold JS.index.
  destruct (Z.ltb_spec i 0) as [?|?]; [done|].
  rewrite get_ge; [done|lia].
Qed.

(** ** [LKWord.at] *)

(** C10. [at(n)] is a total function that returns a value for every
    handle and every integer [n], with no error path: it is [undefined]
    when [n] is at least the length [L] of the word or below [-L], the
    character at position [n] when [0 <= n < L], and the character at
    position [L + n] when [-L <= n < 0]. *)
Theorem at_total (w : LKWord.t) (n : Z) :
  let L := Z.of_nat (LKWord.length w) in
  (L ≤ n ∨ n < - L → LKWord.at_ w n = None) ∧
  (0 ≤ n < L →
     ∃ c, String.get (Z.to_nat n) (LKWord.word w) = Some c
          ∧ LKWord.at_ w n = Some (String c "")) ∧
  (- L ≤ n < 0 →
     ∃ c, String.get (Z.to_nat (L + n)) (LKWord.word w) = Some c
          ∧ LKWord.at_ w n = Some (String c "")).
Proof.
  unfold LKWord.at_, LKWord.length. cbn zeta. repeat split.
  - intros Hn. destruct (Z.ltb_spec n 0); apply index_out_of_range; lia.
  - intros Hn. destruct (Z.ltb_spec n 0); [lia|]. by apply index_in_range.
  - intros Hn. destruct (Z.ltb_spec n 0); [|lia]. apply index_in_range. lia.
Qed.

Lemma at_total_witness :
  LKWord.at_ Sample.cat_handle 3 = None
  ∧ LKWord.at_ Sample.cat_handle (-4) = None
  ∧ (∃ c, String.get 1 "cat" = Some c
          ∧ LKWord.at_ Sample.cat_handle 1 = Some (String c ""))
  ∧ (∃ c, String.get 2 "cat" = Some c
          ∧ LKWord.at_ Sample.cat_handle (-1) = Some (String c "")).
Proof.
  split; [|split; [|split]].
  - apply (proj1 (at_total Sample.cat_handle 3)). unfold LKWord.length; simpl; lia.
  - apply (proj1 (at_total Sample.cat_handle (-4))). unfold LKWord.length; simpl; lia.
  - apply (proj1 (proj2 (at_total Sample.cat_handle 1))). unfold LKWord.length; simpl; lia.
  - apply (proj2 (proj2 (at_total Sample.cat_handle (-1)))). unfold LKWord.length; simpl; lia.
Defined.

Example at_cat :
  LKWord.at_ Sample.cat_handle 0 = Some "c" ∧ LKWord.at_ Sample.cat_handle (-1) = Some "t"
  ∧ LKWord.at_ Sample.cat_handle (-3) = Some "c" ∧ LKWord.at_ Sample.cat_handle 7 = None.
Proof. by vm_compute. Qed.

(** ** [AffixForm] *)

Section AffixFormProperties.

Variable rule : loc → Affix.t.

Lemma hasAffixes_false (f : AffixForm.t) :
  AffixForm.hasAffixes f = false ↔
  AffixForm.prefix f = None ∧ AffixForm.suffix f = None.
Proof.
  unfold AffixForm.hasAffixes.
  destruct (AffixForm.suffix f), (AffixForm.prefix f); simpl;
    rewrite ?bool_decide_eq_false; split;
    try (intros [? ?]; discriminate); try done;
    try (intros H; exfalso; apply H; eauto);
    intros _ [? ?]; discriminate.
Qed.

Lemma no_affixes_no_outer (f : AffixForm.t) :
  AffixForm.affixes f = [] → AffixForm.hasAffixes f = false.
Proof.
  intros H. apply hasAffixes_false. unfold AffixForm.affixes in H.
  destruct (AffixForm.prefix2 f), (AffixForm.prefix f),
    (AffixForm.suffix f), (AffixForm.suffix2 f); simpl in H;
    done.
Qed.

(** C8. [has(flag)] is false when the form has no affixes; when it is
    true, every present affix among [prefix2, prefix, suffix, suffix2]
    carries the flag; a form whose only affix is the outer suffix has the
    flag exactly when that suffix carries it. *)
Theorem has_every_affix (f : AffixForm.t) (flag : Flag) :
  (AffixForm.affixes f = [] → AffixForm.has rule f flag = false) ∧
  (AffixForm.has rule f flag = true →
     AffixForm.affixes f ≠ [] ∧
     ∀ a, a ∈ AffixForm.affixes f → Affix.has (rule a) flag = true) ∧
  (∀ s, AffixForm.suffix f = Some s → AffixForm.prefix f = None →
        AffixForm.prefix2 f = None → AffixForm.suffix2 f = None →
        AffixForm.has rule f flag = Affix.has (rule s) flag).
Proof.
  unfold AffixForm.has. split; [|split].
  - intros H. by rewrite (no_affixes_no_outer f H).
  - destruct (AffixForm.hasAffixes f) eqn:E; [|done]. simpl.
    intros H. split.
    + intros Hnil. by rewrite (no_affixes_no_outer f Hnil) in E.
    + rewrite forallb_forall in H. intros a Ha. apply H.
      by apply list_elem_of_In.
  - intros s Hs Hp Hp2 Hs2.
    unfold AffixForm.hasAffixes, AffixForm.affixes.
    rewrite Hs, Hp, Hp2, Hs2. simpl.
    apply andb_true_r.
Qed.

End AffixFormProperties.

Lemma has_every_affix_witness :
  AffixForm.has Sample.flagged_rule (Sample.cats None) "F" = false
  ∧ AffixForm.has Sample.flagged_rule (Sample.cats (Some 1%nat)) "F"
    = Affix.has (Sample.flagged_rule 1%nat) "F"
  ∧ ∀ a, a ∈ AffixForm.affixes (Sample.cats (Some 1%nat)) →
         Affix.has (Sample.flagged_rule a) "F" = true.
Proof.
  split; [|split].
  - apply (proj1 (has_every_affix Sample.flagged_rule (Sample.cats None) "F")).
    reflexivity.
  - apply (proj2 (proj2 (has_every_affix Sample.flagged_rule
                           (Sample.cats (Some 1%nat)) "F")) 1%nat);
      reflexivity.
  - apply (proj1 (proj2 (has_every_affix Sample.flagged_rule
                           (Sample.cats (Some 1%nat)) "F"))).
    reflexivity.
Defined.

Example has_needs_all :
  AffixForm.has Sample.flagged_rule (Sample.cats (Some 0%nat)) "F" = false
  ∧ AffixForm.has Sample.flagged_rule (Sample.cats (Some 1%nat)) "F" = true.
Proof. by vm_compute. Qed.

(** C9. [h.replace(overrides)] returns a new instance: a fresh object of
    the store, in which every field named in the overrides holds the
    override (for [text], the string of the override) and every other
    field holds the value of [h]; the objects of the store before the
    call, [h] among them, are unchanged. *)
Theorem replace_new_instance (σ : list AffixForm.t) (h : loc)
    (this : AffixForm.t) (opts : AffixForm.ReplaceOpts) :
  σ !! h = Some this →
  ∃ l new σ',
    AffixForm.replace_in σ h opts = Some (l, σ')
    ∧ σ !! l = None ∧ σ' !! l = Some new
    ∧ (∀ k, k ≠ l → σ' !! k = σ !! k) ∧ σ' !! h = Some this
    ∧ carried (text_of <$> AffixForm.r_text opts)
        (AffixForm.text this) (AffixForm.text new)
    ∧ carried (AffixForm.r_stem opts)
        (AffixForm.stem this) (AffixForm.stem new)
    ∧ carried_opt (AffixForm.o_prefix (AffixForm.r_opts opts))
        (AffixForm.prefix this) (AffixForm.prefix new)
    ∧ carried_opt (AffixForm.o_suffix (AffixForm.r_opts opts))
        (AffixForm.suffix this) (AffixForm.suffix new)
    ∧ carried_opt (AffixForm.o_prefix2 (AffixForm.r_opts opts))
        (AffixForm.prefix2 this) (AffixForm.prefix2 new)
    ∧ carried_opt (AffixForm.o_suffix2 (AffixForm.r_opts opts))
        (AffixForm.suffix2 this) (AffixForm.suffix2 new)
    ∧ carried_opt (AffixForm.o_inDictionary (AffixForm.r_opts opts))
        (AffixForm.inDictionary this) (AffixForm.inDictionary new).
Proof.
  intros Hh.
  exists (length σ), (AffixForm.replace this opts),
    (σ ++ [AffixForm.replace this opts]).
  unfold AffixForm.replace_in. rewrite Hh. simpl.
  assert (h < length σ)%nat as Hlt by (by eapply lookup_lt_Some).
  split; [done|]. split; [by apply lookup_ge_None_2|].
  split; [by rewrite lookup_app_r, Nat.sub_diag by done|].
  split.
  { intros k Hk. destruct (decide (k < length σ)%nat).
    - by rewrite lookup_app_l.
    - rewrite !lookup_ge_None_2; [done|lia|rewrite length_app; simpl; lia]. }
  split; [by rewrite lookup_app_l|].
  destruct opts as [txt stm [p s p2 s2 d]]; simpl.
  repeat split.
  - by destruct txt as [[?|?]|].
  - by destruct stm.
  - by destruct p.
  - by destruct s.
  - by destruct p2.
  - by destruct s2.
  - by destruct d.
Qed.

Lemma replace_new_instance_witness :
  ∃ l new σ',
    AffixForm.replace_in [Sample.cats None] 0%nat Sample.stem_x = Some (l, σ')
    ∧ σ' !! l = Some new ∧ AffixForm.stem new = "x"
    ∧ AffixForm.text new = "cats"
    ∧ σ' !! 0%nat = Some (Sample.cats None).
Proof.
  destruct (replace_new_instance [Sample.cats None] 0%nat (Sample.cats None)
              Sample.stem_x eq_refl)
    as (l & new & σ' & H1 & _ & H3 & _ & H5 & H6 & H7 & _).
  exists l, new, σ'. repeat split; assumption.
Defined.

(** ** [Word.flagSets] *)

Lemma remove_dups_NoDup `{EqDecision A} (l : list A) :
  NoDup l → remove_dups l = l.
Proof.
  induction 1 as [|x l Hx _ IH]; simpl; [done|].
  destruct (decide_rel elem_of x l); [done|]. by rewrite IH.
Qed.

Lemma toSet_NoDup `{EqDecision A} (l : list A) : NoDup l → toSet l = l.
Proof.
  intros H. unfold toSet. rewrite remove_dups_NoDup.
  - apply reverse_involutive.
  - by rewrite reverse_Permutation.
Qed.

Lemma elem_of_toSet `{EqDecision A} (l : list A) (x : A) :
  x ∈ toSet l ↔ x ∈ l.
Proof.
  unfold toSet. by rewrite elem_of_reverse, elem_of_remove_dups, elem_of_reverse.
Qed.

Lemma NoDup_toSet `{EqDecision A} (l : list A) : NoDup (toSet l).
Proof. unfold toSet. rewrite reverse_Permutation. apply NoDup_remove_dups. Qed.

(** The loop of [flagSets] allocates one object per flag set, in order. *)
Lemma flagSets_loop (fls : list Flags) (refs : list loc) (σ : list Flags) :
  foldl (λ acc fl,
           let '(l, σ) := alloc acc.2 (toSet fl) in (acc.1 ++ [l], σ))
        (refs, σ) fls
  = (refs ++ seq (length σ) (length fls), σ ++ (toSet <$> fls)).
Proof.
  revert refs σ. induction fls as [|fl fls IH]; intros refs σ; simpl.
  - by rewrite !app_nil_r.
  - rewrite IH. rewrite length_app. simpl.
    rewrite <- !app_assoc. simpl. by rewrite Nat.add_1_r.
Qed.

Lemma flagSets_eq (σ : list Flags) (words : list Word.t) :
  Word.flagSets σ words
  = (seq (length σ) (length (omap Word.flags words)),
     σ ++ (toSet <$> omap Word.flags words)).
Proof.
  unfold Word.flagSets. rewrite flagSets_loop. simpl.
  by rewrite toSet_NoDup by apply NoDup_seq.
Qed.

(** C7, as the code has it. [flagSets] returns one flag set per word that
    has flags, in the order of the words, each a fresh object holding the
    flags of its word; words without flags contribute nothing. The
    elements are distinct objects, so the result has as many elements as
    there are words with flags, whether or not two of them carry the same
    flags. *)
Theorem flagSets_one_per_word (σ : list Flags) (words : list Word.t) :
  let fls := omap Word.flags words in
  let r := Word.flagSets σ words in
  length r.1 = length fls ∧ NoDup r.1
  ∧ (∀ k s, σ !! k = Some s → r.2 !! k = Some s)
  ∧ (∀ l, l ∈ r.1 → σ !! l = None)
  ∧ ∀ i, (i < length fls)%nat →
      ∃ l fl s, r.1 !! i = Some l ∧ fls !! i = Some fl ∧ r.2 !! l = Some s
                ∧ ∀ f, f ∈ s ↔ f ∈ fl.
Proof.
  cbn zeta. rewrite flagSets_eq. simpl.
  split; [by rewrite length_seq|]. split; [apply NoDup_seq|].
  split; [intros k s Hk; by apply lookup_app_l_Some|].
  split.
  { intros l Hl. apply elem_of_seq in Hl. apply lookup_ge_None_2. lia. }
  intros i Hi.
  destruct (lookup_lt_is_Some_2 (omap Word.flags words) i Hi) as [fl Hfl].
  exists (length σ + i)%nat, fl, (toSet fl).
  split; [by apply lookup_seq_lt|]. split; [done|]. split.
  - rewrite lookup_app_r by lia.
    replace (length σ + i - length σ)%nat with i by lia.
    by rewrite list_lookup_fmap, Hfl.
  - intros f. apply elem_of_toSet.
Qed.

(** C7 as stated fails: two words with the flag set [{A}] give two
    elements, both holding [{A}]. *)
Lemma flagSets_no_collapse :
  ¬ distinct_contents
      (Word.flagSets [] [Sample.entry "cat" (Some ["A"]);
                         Sample.entry "dog" (Some ["A"])]).
Proof.
  intros H.
  specialize (H 0%nat 1%nat ["A"] ["A"]). simpl in H.
  assert (0%nat = 1%nat) as Habs; [|discriminate].
  apply H; try reflexivity; try done.
  - apply list_elem_of_In. vm_compute. tauto.
  - apply list_elem_of_In. vm_compute. tauto.
Qed.

Lemma flagSets_one_per_word_witness :
  let r := Word.flagSets [] [Sample.entry "cat" (Some ["A"]);
                             Sample.entry "a" None;
                             Sample.entry "dog" (Some ["A"])] in
  length r.1 = 2%nat ∧ NoDup r.1.
Proof.
  pose proof (flagSets_one_per_word []
                [Sample.entry "cat" (Some ["A"]); Sample.entry "a" None;
                 Sample.entry "dog" (Some ["A"])]) as (H1 & H2 & _).
  split; [exact H1 | exact H2].
Defined.

(** ** The [Word] constructor: data tokens *)

Lemma slice_drop_end (s : string) (n : nat) :
  JS.slice s 0 (Some (- Z.of_nat (S n))) = drop_end (S n) s.
Proof.
  unfold JS.slice, drop_end, JS.clamp.
  destruct (Z.ltb_spec 0 0) as [?|_]; [lia|].
  destruct (Z.ltb_spec (- Z.of_nat (S n)) 0) as [_|?]; [|lia].
  f_equal; lia.
Qed.

Lemma data_add_frame (k_get k_set v : string) (w : Word.t) :
  Word.stem (Word.data_add k_get k_set v w) = Word.stem w
  ∧ Word.altSpellings (Word.data_add k_get k_set v w) = Word.altSpellings w
  ∧ Word.flags (Word.data_add k_get k_set v w) = Word.flags w.
Proof.
  unfold Word.data_add.
  by destruct (default ∅ (Word.data w) !! k_get).
Qed.


(** The loop over the tokens never changes the stem and only appends to
    the replacement patterns, so what a token registers stays registered
    against the stem of the entry. *)
Lemma ph_stem_REP (value : string) (st : Word.t * Aff.t) :
  Word.stem (Word.ph value st).1 = Word.stem st.1
  ∧ ∃ added, Aff.REP (Word.ph value st).2 = Aff.REP st.2 ++ added.
Proof.
  destruct st as [w aff]. unfold Word.ph.
  destruct (JS.endsWith value "*"); [split; [done|by eexists]|].
  destruct (JS.includes value "->").
  - destruct (JS.split value "->") as [|from [|to rest]]; simpl;
      (split; [done|]); try (by exists []; rewrite app_nil_r); by eexists.
  - split; [done|by eexists].
Qed.

Lemma token_stem_REP (SPLIT_DATA_REGEX : string → option (string * string))
    (tok : string) (st : Word.t * Aff.t) :
  Word.stem (Word.token SPLIT_DATA_REGEX tok st).1 = Word.stem st.1
  ∧ ∃ added,
      Aff.REP (Word.token SPLIT_DATA_REGEX tok st).2 = Aff.REP st.2 ++ added.
Proof.
  assert (∀ k v kvs w,
    Word.stem (foldl (λ w str, Word.data_add k v str w) w kvs) = Word.stem w)
    as Hloop.
  { intros k v kvs. induction kvs as [|x kvs IH]; intros w; simpl; [done|].
    rewrite IH. apply data_add_frame. }
  unfold Word.token.
  destruct (SPLIT_DATA_REGEX tok) as [[key value]|].
  - destruct (String.eqb key "ph").
    + destruct (ph_stem_REP value (Word.data_add value key value st.1, st.2))
        as [-> H]. split; [apply data_add_frame|done].
    + split; [apply data_add_frame|]. exists []. by rewrite app_nil_r.
  - destruct (JS.test_digits tok); [|split; [done|exists []; by rewrite app_nil_r]].
    destruct (JS.array_get _ _); simpl;
      (split; [by rewrite ?Hloop|exists []; by rewrite app_nil_r]).
Qed.

Lemma tokens_stem_REP (SPLIT_DATA_REGEX : string → option (string * string))
    (kvs : list string) (st : Word.t * Aff.t) :
  Word.stem (Word.tokens SPLIT_DATA_REGEX kvs st).1 = Word.stem st.1
  ∧ ∃ added,
      Aff.REP (Word.tokens SPLIT_DATA_REGEX kvs st).2 = Aff.REP st.2 ++ added.
Proof.
  unfold Word.tokens. revert st.
  induction kvs as [|kv kvs IH]; intros st; simpl.
  - split; [done|]. exists []. by rewrite app_nil_r.
  - destruct (IH (Word.token SPLIT_DATA_REGEX kv st)) as [-> [a2 ->]].
    destruct (token_stem_REP SPLIT_DATA_REGEX kv st) as [-> [a1 ->]].
    split; [done|]. exists (a1 ++ a2). by rewrite app_assoc.
Qed.


Lemma append_cons (c : Ascii.ascii) (a b : string) :
  String c a +:+ b = String c (a +:+ b).
Proof. reflexivity. Qed.

Lemma append_nil_r (s : string) : s +:+ "" = s.
Proof.
  induction s as [|c s IH]; [done|]. by rewrite append_cons, IH.
Qed.

Lemma append_assoc (a b c : string) : (a +:+ b) +:+ c = a +:+ (b +:+ c).
Proof.
  induction a as [|x a IH]; [done|]. by rewrite !append_cons, IH.
Qed.

Lemma prefix_nil (s : string) : String.prefix "" s = true.
Proof. by destruct s. Qed.

Lemma includes_cons (c : Ascii.ascii) (s t : string) :
  JS.includes (String c s) t = false →
  String.prefix t (String c s) = false ∧ JS.includes s t = false.
Proof. simpl. intros H. by apply orb_false_elim in H. Qed.

(** A string without the separator is a single piece. *)
Lemma split_from_none (sep cur s : string) :
  JS.includes s sep = false → JS.split_from sep 0 cur s = [cur +:+ s].
Proof.
  revert cur. induction s as [|c s IH]; intros cur H.
  - simpl. by rewrite append_nil_r.
  - apply includes_cons in H as [Hp Hs]. cbn [JS.split_from].
    rewrite Hp, (IH _ Hs), append_assoc. done.
Qed.

(** The arrow is not found earlier than at the end of a text without
    arrow. *)
Lemma prefix_arrow_later (c : Ascii.ascii) (from rest : string) :
  String.prefix "->" (String c from) = false →
  String.prefix "->" (String c (from +:+ "->" +:+ rest)) = false.
Proof.
  cbn [String.prefix].
  destruct (Ascii.ascii_dec "-" c); [|done].
  destruct from as [|d from]; intros H.
  - change ("" +:+ "->" +:+ rest) with (String "-" (String ">" rest)).
    cbn [String.prefix]. by destruct (Ascii.ascii_dec ">" "-").
  - rewrite append_cons. cbn [String.prefix] in *.
    destruct (Ascii.ascii_dec ">" d); [|done]. by destruct from.
Qed.

Lemma split_from_arrow (cur from to : string) :
  JS.includes from "->" = false →
  JS.split_from "->" 0 cur (from +:+ "->" +:+ to)
  = (cur +:+ from) :: JS.split_from "->" 0 "" to.
Proof.
  revert cur. induction from as [|c from IH]; intros cur H.
  - change ("" +:+ "->" +:+ to) with (String "-" (String ">" to)).
    simpl. by rewrite prefix_nil, append_nil_r.
  - apply includes_cons in H as [Hp Hs].
    rewrite append_cons.
    cbn [JS.split_from]. rewrite (prefix_arrow_later _ _ _ Hp).
    rewrite (IH _ Hs), append_assoc. done.
Qed.

Lemma split_arrow (from to : string) :
  JS.includes from "->" = false → JS.includes to "->" = false →
  JS.split (from +:+ "->" +:+ to) "->" = [from; to].
Proof.
  intros Hf Ht. unfold JS.split.
  by rewrite (split_from_arrow _ _ _ Hf), (split_from_none _ _ _ Ht).
Qed.







(** The two lines of the spec, through the whole constructor. *)
Example ph_lines :
  (r ← Sample.aff_of (Word_new "wednesday ph:wensday" Sample.plain);
   Some (Aff.REP r))
  = Some [{| rep_from := "wensday"; rep_to := "wednesday" |}]
  ∧ (w ← Sample.word_of (Word_new "wednesday ph:wensday" Sample.plain);
     Word.altSpellings w) = Some {["wensday"]}
  ∧ (r ← Sample.aff_of (Word_new "happy ph:hepi->happi" Sample.plain);
     Some (Aff.REP r))
    = Some [{| rep_from := "hepi"; rep_to := "happi" |}]
  ∧ (w ← Sample.word_of (Word_new "happy ph:hepi->happi" Sample.plain);
     Word.altSpellings w) = None.
Proof. by vm_compute. Qed.

(** The branch of [ph] for an arrow never finds fewer than two pieces. *)
Lemma split_from_pieces (sep : string) (skip : nat) (cur s : string) :
  ∃ a rest, JS.split_from sep skip cur s = a :: rest.
Proof.
  revert skip cur. induction s as [|c s IH]; intros skip cur.
  - simpl. eauto.
  - cbn [JS.split_from]. destruct skip; [|apply IH].
    destruct (String.prefix sep (String c s)); [eauto|apply IH].
Qed.

Lemma split_includes (sep s : string) :
  sep ≠ "" →
  JS.includes s sep = true → ∃ a b rest, JS.split s sep = a :: b :: rest.
Proof.
  intros Hsep. unfold JS.split. generalize EmptyString as cur.
  induction s as [|c s IH]; intros cur H.
  - by destruct sep.
  - cbn [JS.split_from]. cbn [JS.includes] in H.
    destruct (String.prefix sep (String c s)).
    + destruct (split_from_pieces sep (String.length sep - 1) "" s)
        as (b & rest & ->). eauto.
    + apply IH. by rewrite orb_false_l in H.
Qed.

(** What the three statements of lines 70 to 72 do when the value was
    never a key: the set stored under [key] is a new one that holds
    [value] alone, whatever was stored under [key] before. *)
Lemma data_add_overwrites (key value : string) (w : Word.t) :
  default ∅ (Word.data w) !! value = None →
  Word.data_get (Word.data_add value key value w) key = Some {[value]}.
Proof.
  intros H. unfold Word.data_add, Word.data_get. rewrite H. simpl.
  rewrite lookup_insert_eq. simpl.
  rewrite list_lookup_alter_eq, lookup_app_r, Nat.sub_diag by done. simpl.
  f_equal. apply (left_id_L ∅ (∪)).
Qed.

(** C1, on the code. The set found for a [key:value] token is looked up
    under the value, not under the key (line 71). In [cat is:a is:b] the
    second token replaces the set of [is], so [a] is dropped; in
    [cat a:b x:a] the second token finds the set of the key [a], adds to
    it and stores it under [x] as well, so [b] is attributed to [x] and
    [a] to [a]. *)
Theorem data_lookup_by_value :
  (w ← Sample.word_of (Word_new "cat is:a is:b" Sample.plain);
   Word.data_get w "is") = Some {["b"]}
  ∧ (w ← Sample.word_of (Word_new "cat a:b x:a" Sample.plain);
     Word.data_get w "x") = Some {["b"; "a"]}
  ∧ (w ← Sample.word_of (Word_new "cat a:b x:a" Sample.plain);
     Word.data_get w "a") = Some {["b"; "a"]}.
Proof. by vm_compute. Qed.

(** A numeric token whose alias is a [Set] changes nothing: [for ... in]
    finds no key in it. *)
Lemma token_alias_set
    (SPLIT_DATA_REGEX : string → option (string * string))
    (tok : string) (components : list string) (w : Word.t) (aff : Aff.t) :
  SPLIT_DATA_REGEX tok = None →
  JS.test_digits tok = true →
  JS.array_get (Aff.AM aff) (JS.parseInt tok - 1)
    = Some (AliasSet components) →
  Word.token SPLIT_DATA_REGEX tok (w, aff) = (w, aff).
Proof. intros H1 H2 H3. unfold Word.token. simpl. by rewrite H1, H2, H3. Qed.

(** C3, on the code. The loop over the alias is a [for ... in] (line 96),
    which walks property names and not elements, and a [Set] has no
    property to walk. With the alias table [[{st:cat}]], in the line
    [cat po:noun 1] the token [1] names the alias, yet the word has
    nothing under [1]: [data] holds the key [po] alone, and the
    component [st:cat] is recorded nowhere. *)
Theorem alias_components_not_recorded :
  JS.array_get (Aff.AM Sample.alias_set) (JS.parseInt "1" - 1)
  = Some (AliasSet ["st:cat"])
  ∧ (w ← Sample.word_of (Word_new "cat po:noun 1" Sample.alias_set);
     Some (Word.data_get w "1", Word.data_get w "po", dom <$> Word.data w))
    = Some (None, Some {["noun"]}, Some {["po"]}).
Proof. by vm_compute. Qed.

(** ** [Word.forms] *)

Lemma substring_zero (n : nat) (s : string) : String.substring n 0 s = "".
Proof.
  revert n. induction s as [|c s IH]; intros [|n]; simpl; done.
Qed.

Lemma substring_all (s : string) : String.substring 0 (String.length s) s = s.
Proof. induction s as [|c s IH]; simpl; [done|]. by rewrite IH. Qed.

Lemma length_substring (a m : nat) (s : string) :
  String.length (String.substring a m s) = (m `min` (String.length s - a))%nat.
Proof.
  revert a m. induction s as [|c s IH]; intros a m.
  - destruct a, m; simpl; lia.
  - destruct a as [|a]; simpl.
    + destruct m as [|m]; simpl; [done|]. rewrite IH. lia.
    + apply IH.
Qed.

Lemma substring_substring (a m k : nat) (s : string) :
  String.substring 0 k (String.substring a m s)
  = String.substring a (k `min` m) s.
Proof.
  revert a m k. induction s as [|c s IH]; intros a m k.
  - destruct a, m, k; simpl; done.
  - destruct a as [|a].
    + destruct m as [|m]; simpl.
      * rewrite Nat.min_0_r. by destruct k.
      * destruct k as [|k]; simpl; [done|]. by rewrite IH.
    + simpl. apply IH.
Qed.

(** The count of the substring on the left is zero. *)
Ltac empty_count :=
  match goal with
  | |- String.substring _ ?m _ = _ => replace m with 0%nat by lia
  end.

Lemma slice_from (s : string) (a : nat) :
  JS.slice s (Z.of_nat a) None = drop_start a s.
Proof.
  unfold JS.slice, drop_start, JS.clamp.
  destruct (Z.ltb_spec (Z.of_nat a) 0) as [?|_]; [lia|].
  destruct (decide (a ≤ String.length s)%nat).
  - f_equal; lia.
  - replace (String.length s - a)%nat with 0%nat by lia.
    empty_count. by rewrite !substring_zero.
Qed.

Lemma slice_both (s : string) (a b : nat) :
  JS.slice s (Z.of_nat a) (Some (- Z.of_nat (S b)))
  = drop_end (S b) (drop_start a s).
Proof.
  unfold JS.slice, drop_end, drop_start, JS.clamp.
  destruct (Z.ltb_spec (Z.of_nat a) 0) as [?|_]; [lia|].
  destruct (Z.ltb_spec (- Z.of_nat (S b)) 0) as [_|?]; [|lia].
  rewrite length_substring, substring_substring.
  destruct (decide (a ≤ String.length s)%nat).
  - f_equal; lia.
  - replace (_ `min` _)%nat with 0%nat by lia.
    empty_count. by rewrite !substring_zero.
Qed.

Lemma drop_end_0 (s : string) : drop_end 0 s = s.
Proof. unfold drop_end. rewrite Nat.sub_0_r. apply substring_all. Qed.

Lemma drop_start_0 (s : string) : drop_start 0 s = s.
Proof. unfold drop_start. rewrite Nat.sub_0_r. apply substring_all. Qed.

(** Decide the truthiness test on a strip text that is known. *)
Ltac reduce_strip := cbn [truthy from_option String.length].

(** The three kinds of form, in the words of the spec. *)
Lemma cross_form_crossed (aff : Aff.t) (w : Word.t) (p s : loc) :
  Word.cross_form aff w (p, s) = crossed aff (Word.stem w) p s.
Proof.
  unfold Word.cross_form, crossed, trimmed, Word.strip_length.
  reduce_strip.
  destruct (Affix.strip (Aff.rule aff s)) as [|c t]; reduce_strip.
  - by rewrite slice_from, drop_end_0.
  - by rewrite <- slice_both.
Qed.

Lemma suffix_form_trimmed (aff : Aff.t) (w : Word.t) (s : loc) :
  Word.suffix_form aff w s
  = trimmed aff (Word.stem w) None (Some s) +:+ Affix.add (Aff.rule aff s).
Proof.
  unfold Word.suffix_form, trimmed, Word.strip_length.
  reduce_strip.
  destruct (Affix.strip (Aff.rule aff s)) as [|c t]; reduce_strip.
  - by rewrite drop_start_0, drop_end_0.
  - by rewrite drop_start_0, <- slice_drop_end.
Qed.

Lemma prefix_form_trimmed (aff : Aff.t) (w : Word.t) (p : loc) :
  Word.prefix_form aff w p
  = Affix.add (Aff.rule aff p) +:+ trimmed aff (Word.stem w) (Some p) None.
Proof.
  unfold Word.prefix_form, trimmed, Word.strip_length. reduce_strip.
  by rewrite slice_from, drop_end_0.
Qed.

Lemma elem_of_bool_filter {A} (f : A → bool) (l : list A) (x : A) :
  x ∈ List.filter f l ↔ x ∈ l ∧ f x = true.
Proof. rewrite !list_elem_of_In. apply filter_In. Qed.

Lemma elem_of_concat {A} (ls : list (list A)) (x : A) :
  x ∈ concat ls ↔ ∃ l, l ∈ ls ∧ x ∈ l.
Proof.
  rewrite list_elem_of_In, in_concat. split; intros (l & H1 & H2); exists l.
  - by rewrite !list_elem_of_In.
  - by rewrite <- !list_elem_of_In.
Qed.

Lemma bool_filter_nil {A} (f : A → bool) (l : list A) :
  (∀ x, x ∈ l → f x = false) → List.filter f l = [].
Proof.
  induction l as [|a l IH]; intros H; simpl; [done|].
  rewrite (H a) by apply list_elem_of_here.
  apply IH. intros x Hx. apply H. by apply list_elem_of_further.
Qed.

(** The candidates are the licensed rules that apply to the stem. *)
Lemma elem_of_candidates (table : gmap Flag (list loc)) (rule : loc → Affix.t)
    (fl : Flags) (stm : string) (r : loc) :
  r ∈ Word.candidates table rule fl stm ↔ licensed table rule fl stm r.
Proof.
  unfold Word.candidates, licensed.
  rewrite elem_of_toSet, elem_of_bool_filter, elem_of_concat.
  split.
  - intros [(rs & Hrs & Hr) Hrel].
    apply list_elem_of_omap in Hrs as (f & Hf & Hlook). eauto 7.
  - intros (f & rs & Hf & Hlook & Hr & Hrel). split; [|done].
    exists rs. split; [|done]. apply list_elem_of_omap. eauto.
Qed.

Lemma similar_Some (sim : string) (test : string → bool) :
  sim ≠ "" → Word.similar (Some sim) test = test sim.
Proof. by destruct sim. Qed.

Section FormsMembership.

Variable aff : Aff.t.
Variable w : Word.t.
Variable similarTo : option string.
Variable fl : Flags.

Let suffix_ok (s : loc) : Prop :=
  licensed (Aff.SFX aff) (Aff.rule aff) fl (Word.stem w) s
  ∧ Word.similar similarTo
      (λ sim, JS.endsWith sim (Affix.add (Aff.rule aff s))) = true.

Let prefix_ok (p : loc) : Prop :=
  licensed (Aff.PFX aff) (Aff.rule aff) fl (Word.stem w) p
  ∧ Word.similar similarTo
      (λ sim, JS.startsWith sim (Affix.add (Aff.rule aff p))) = true.

Lemma elem_of_suffixes (s : loc) :
  s ∈ Word.suffixes aff w similarTo fl ↔ suffix_ok s.
Proof.
  unfold Word.suffixes, suffix_ok.
  by rewrite elem_of_bool_filter, elem_of_candidates.
Qed.

Lemma elem_of_prefixes (p : loc) :
  p ∈ Word.prefixes aff w similarTo fl ↔ prefix_ok p.
Proof.
  unfold Word.prefixes, prefix_ok.
  by rewrite elem_of_bool_filter, elem_of_candidates.
Qed.

(** The pairs that are crossed: a surviving prefix, a surviving suffix,
    both eligible. *)
Lemma elem_of_cross (p s : loc) :
  (p, s) ∈ Word.cross aff w similarTo fl ↔
  prefix_ok p ∧ suffix_ok s ∧ eligible aff p s.
Proof.
  unfold Word.cross, eligible.
  rewrite elem_of_concat. split.
  - intros (l & Hl & Hps).
    apply list_elem_of_fmap in Hl as (p' & -> & Hp').
    apply list_elem_of_fmap in Hps as (s' & [= -> ->] & Hs').
    apply elem_of_bool_filter in Hs' as [Hs' Hx].
    apply andb_true_iff in Hx as [? ?].
    by rewrite <- elem_of_prefixes, <- elem_of_suffixes.
  - intros (Hp & Hs & Hxp & Hxs).
    eexists. split.
    + apply list_elem_of_fmap. exists p. split; [done|].
      by apply elem_of_prefixes.
    + apply list_elem_of_fmap. exists s. split; [done|].
      apply elem_of_bool_filter. split; [by apply elem_of_suffixes|].
      by rewrite Hxp, Hxs.
Qed.

(** The forms of an entry with flags: the stem, then the form of each
    surviving suffix, of each crossed pair and of each surviving
    prefix. *)
Lemma elem_of_forms (x : string) :
  Word.flags w = Some fl →
  x ∈ Word.forms aff w similarTo ↔
  x = Word.stem w
  ∨ (∃ s, suffix_ok s ∧ x = Word.suffix_form aff w s)
  ∨ (∃ p s, prefix_ok p ∧ suffix_ok s ∧ eligible aff p s
            ∧ x = Word.cross_form aff w (p, s))
  ∨ (∃ p, prefix_ok p ∧ x = Word.prefix_form aff w p).
Proof.
  intros Hfl. unfold Word.forms. rewrite Hfl.
  rewrite !elem_of_app, list_elem_of_singleton, !list_elem_of_fmap.
  split.
  - intros [->|[(s & -> & Hs)|[([p s] & -> & Hps)|(p & -> & Hp)]]].
    + by left.
    + right; left. exists s. by rewrite <- elem_of_suffixes.
    + right; right; left. apply elem_of_cross in Hps as (? & ? & ?).
      by exists p, s.
    + right; right; right. exists p. by rewrite <- elem_of_prefixes.
  - intros [->|[(s & Hs & ->)|[(p & s & Hp & Hs & Hx & ->)|(p & Hp & ->)]]].
    + by left.
    + right; left. exists s. by rewrite elem_of_suffixes.
    + right; right; left. exists (p, s). by rewrite elem_of_cross.
    + right; right; right. exists p. by rewrite elem_of_prefixes.
Qed.

End FormsMembership.

Lemma similar_None (test : string → bool) : Word.similar None test = true.
Proof. reflexivity. Qed.

(** C2, as the code has it. For an entry whose flags license a prefix [p]
    and a suffix [s] that both apply to the stem, [forms()] includes the
    two single-affix forms whatever the eligibility of the rules, and the
    crossed form prefix-add + root + suffix-add when both rules are
    cross-product-eligible. The pair is crossed exactly when both rules
    are eligible; forms are strings, so the crossed string of an
    ineligible pair is among the forms only where it is also the stem, a
    single-affix form or the crossed form of an eligible pair. *)
Theorem forms_cross_product (aff : Aff.t) (w : Word.t) (fl : Flags)
    (p s : loc) :
  Word.flags w = Some fl →
  licensed (Aff.PFX aff) (Aff.rule aff) fl (Word.stem w) p →
  licensed (Aff.SFX aff) (Aff.rule aff) fl (Word.stem w) s →
  let fs := Word.forms aff w None in
  let stm := Word.stem w in
  let pfx := licensed (Aff.PFX aff) (Aff.rule aff) fl stm in
  let sfx := licensed (Aff.SFX aff) (Aff.rule aff) fl stm in
  trimmed aff stm None (Some s) +:+ Affix.add (Aff.rule aff s) ∈ fs
  ∧ Affix.add (Aff.rule aff p) +:+ trimmed aff stm (Some p) None ∈ fs
  ∧ (eligible aff p s → crossed aff stm p s ∈ fs)
  ∧ ((p, s) ∈ Word.cross aff w None fl ↔ eligible aff p s)
  ∧ (crossed aff stm p s ∈ fs →
       crossed aff stm p s = stm
       ∨ (∃ s', sfx s' ∧ crossed aff stm p s
                         = trimmed aff stm None (Some s')
                           +:+ Affix.add (Aff.rule aff s'))
       ∨ (∃ p', pfx p' ∧ crossed aff stm p s
                         = Affix.add (Aff.rule aff p')
                           +:+ trimmed aff stm (Some p') None)
       ∨ (∃ p' s', pfx p' ∧ sfx s' ∧ eligible aff p' s'
                   ∧ crossed aff stm p s = crossed aff stm p' s')).
Proof.
  intros Hfl Hp Hs. cbn zeta.
  rewrite <- suffix_form_trimmed, <- prefix_form_trimmed.
  rewrite <- cross_form_crossed.
  rewrite !(elem_of_forms aff w None fl _ Hfl), elem_of_cross.
  split; [right; left; by exists s|].
  split; [right; right; right; by exists p|].
  split; [intros Hx; right; right; left; by exists p, s|].
  split; [split; [by intros (_ & _ & ?)|done]|].
  intros [H|[(s' & [Hs' _] & H)|[(p' & s' & [Hp' _] & [Hs' _] & Hx & H)
                                |(p' & [Hp' _] & H)]]].
  - by left.
  - right; left. exists s'. by rewrite <- suffix_form_trimmed.
  - right; right; right. exists p', s'. by rewrite <- cross_form_crossed.
  - right; right; left. exists p'. by rewrite <- prefix_form_trimmed.
Qed.

Lemma licensed_un_ly (xp xs : bool) :
  licensed (Aff.PFX (Sample.un_ly xp xs)) (Aff.rule (Sample.un_ly xp xs))
    ["A"; "B"] "cat" 0%nat
  ∧ licensed (Aff.SFX (Sample.un_ly xp xs)) (Aff.rule (Sample.un_ly xp xs))
      ["A"; "B"] "cat" 1%nat.
Proof.
  split.
  - exists "A", [0%nat]. repeat split; [set_solver|set_solver].
  - exists "B", [1%nat]. repeat split; [set_solver|set_solver].
Qed.

Lemma forms_cross_product_witness :
  "catly" ∈ Word.forms (Sample.un_ly true true)
              (Sample.entry "cat" (Some ["A"; "B"])) None
  ∧ "uncat" ∈ Word.forms (Sample.un_ly true true)
                (Sample.entry "cat" (Some ["A"; "B"])) None
  ∧ "uncatly" ∈ Word.forms (Sample.un_ly true true)
                  (Sample.entry "cat" (Some ["A"; "B"])) None.
Proof.
  destruct (forms_cross_product (Sample.un_ly true true)
              (Sample.entry "cat" (Some ["A"; "B"])) ["A"; "B"] 0%nat 1%nat
              eq_refl (proj1 (licensed_un_ly true true))
              (proj2 (licensed_un_ly true true)))
    as (H1 & H2 & H3 & _).
  split; [exact H1|]. split; [exact H2|].
  apply H3. split; reflexivity.
Defined.

(** The cross-product gating of the spec: the forms of [cat] under [un-]
    and [-ly], for the four choices of eligibility. *)
Example forms_un_ly :
  Word.forms (Sample.un_ly true true)
    (Sample.entry "cat" (Some ["A"; "B"])) None
  = ["cat"; "catly"; "uncatly"; "uncat"]
  ∧ ∀ xp xs, xp && xs = false →
      Word.forms (Sample.un_ly xp xs)
        (Sample.entry "cat" (Some ["A"; "B"])) None
      = ["cat"; "catly"; "uncat"].
Proof.
  split; [by vm_compute|]. by intros [] [] H; try discriminate H; vm_compute.
Qed.

(** C2 as stated fails: in a rule set with an ineligible [un-] under flag
    [A], an eligible [un-] under flag [C] and an eligible [-ly] under flag
    [B], the crossed form of the ineligible [un-] and [-ly] is among the
    forms of [cat/ABC]. *)
Lemma crossed_despite_ineligible :
  licensed (Aff.PFX Sample.un_un_ly) (Aff.rule Sample.un_un_ly)
    ["A"; "B"; "C"] "cat" 0%nat
  ∧ licensed (Aff.SFX Sample.un_un_ly) (Aff.rule Sample.un_un_ly)
      ["A"; "B"; "C"] "cat" 1%nat
  ∧ ¬ crossed_iff_eligible Sample.un_un_ly
        (Sample.entry "cat" (Some ["A"; "B"; "C"])) 0%nat 1%nat.
Proof.
  split; [|split].
  - exists "A", [0%nat]. repeat split; [set_solver|set_solver].
  - exists "B", [1%nat]. repeat split; [set_solver|set_solver].
  - intros [H _].
    assert (eligible Sample.un_un_ly 0%nat 1%nat) as [Hx _]; [|discriminate].
    apply H. apply list_elem_of_In. vm_compute. tauto.
Qed.

(** C6. For a non-empty [similarTo], [forms(similarTo)] is the stem
    followed only by forms built from licensed suffixes whose add-text is
    a suffix of [similarTo] and licensed prefixes whose add-text is a
    prefix of it; every such suffix and prefix is retained; and when no
    licensed affix matches, the result is the stem alone. *)
Theorem forms_similarTo (aff : Aff.t) (w : Word.t) (sim : string) :
  sim ≠ "" →
  let fs := Word.forms aff w (Some sim) in
  let ends s := JS.endsWith sim (Affix.add (Aff.rule aff s)) = true in
  let starts p := JS.startsWith sim (Affix.add (Aff.rule aff p)) = true in
  let sfx fl := licensed (Aff.SFX aff) (Aff.rule aff) fl (Word.stem w) in
  let pfx fl := licensed (Aff.PFX aff) (Aff.rule aff) fl (Word.stem w) in
  (∃ rest, fs = Word.stem w :: rest
     ∧ ∀ x, x ∈ rest →
         ∃ fl, Word.flags w = Some fl
           ∧ ((∃ s, sfx fl s ∧ ends s ∧ x = Word.suffix_form aff w s)
              ∨ (∃ p s, pfx fl p ∧ starts p ∧ sfx fl s ∧ ends s
                        ∧ eligible aff p s
                        ∧ x = Word.cross_form aff w (p, s))
              ∨ (∃ p, pfx fl p ∧ starts p
                      ∧ x = Word.prefix_form aff w p)))
  ∧ (∀ fl s, Word.flags w = Some fl → sfx fl s → ends s →
       Word.suffix_form aff w s ∈ fs)
  ∧ (∀ fl p, Word.flags w = Some fl → pfx fl p → starts p →
       Word.prefix_form aff w p ∈ fs)
  ∧ ((∀ fl s, Word.flags w = Some fl → sfx fl s → ¬ ends s) →
     (∀ fl p, Word.flags w = Some fl → pfx fl p → ¬ starts p) →
     fs = [Word.stem w]).
Proof.
  intros Hsim. cbn zeta. split; [|split; [|split]].
  - unfold Word.forms. destruct (Word.flags w) as [fl|] eqn:Hfl.
    + eexists. split; [reflexivity|]. intros x Hx. exists fl. split; [done|].
      rewrite !elem_of_app, !list_elem_of_fmap in Hx.
      destruct Hx as [(s & -> & Hs)|[([p s] & -> & Hps)|(p & -> & Hp)]].
      * left. exists s. apply elem_of_suffixes in Hs as [? Hs].
        by rewrite similar_Some in Hs.
      * right; left. exists p, s.
        apply elem_of_cross in Hps as ([? Hp] & [? Hs] & ?).
        by rewrite similar_Some in Hp, Hs.
      * right; right. exists p. apply elem_of_prefixes in Hp as [? Hp].
        by rewrite similar_Some in Hp.
    + exists []. split; [done|]. by intros x Hx%elem_of_nil.
  - intros fl s Hfl Hs He. apply (elem_of_forms aff w (Some sim) fl _ Hfl).
    right; left. exists s. by rewrite similar_Some.
  - intros fl p Hfl Hp He. apply (elem_of_forms aff w (Some sim) fl _ Hfl).
    right; right; right. exists p. by rewrite similar_Some.
  - intros Hno_s Hno_p. unfold Word.forms.
    destruct (Word.flags w) as [fl|] eqn:Hfl; [|done].
    assert (Word.suffixes aff w (Some sim) fl = []) as Hs.
    { apply bool_filter_nil. intros s Hs%elem_of_candidates.
      rewrite similar_Some by done. apply not_true_is_false. by eapply Hno_s. }
    assert (Word.prefixes aff w (Some sim) fl = []) as Hp.
    { apply bool_filter_nil. intros p Hp%elem_of_candidates.
      rewrite similar_Some by done. apply not_true_is_false. by eapply Hno_p. }
    unfold Word.cross. by rewrite Hs, Hp.
Qed.

Lemma forms_similarTo_witness :
  Word.forms (Sample.un_ly true true)
    (Sample.entry "cat" (Some ["A"; "B"])) (Some "dog") = ["cat"]
  ∧ "catly" ∈ Word.forms (Sample.un_ly true true)
                (Sample.entry "cat" (Some ["A"; "B"])) (Some "uncatly")
  ∧ "uncat" ∈ Word.forms (Sample.un_ly true true)
                (Sample.entry "cat" (Some ["A"; "B"])) (Some "uncatly").
Proof.
  split; [|split].
  - apply (forms_similarTo (Sample.un_ly true true)
             (Sample.entry "cat" (Some ["A"; "B"])) "dog"); [done|..].
    + intros fl s [= <-] (f & rs & Hf & Hrs & Hr & _).
      apply list_elem_of_In in Hf.
      destruct Hf as [<-|[<-|[]]]; vm_compute in Hrs; [done|].
      injection Hrs as <-. apply list_elem_of_singleton in Hr as ->.
      by vm_compute.
    + intros fl p [= <-] (f & rs & Hf & Hrs & Hr & _).
      apply list_elem_of_In in Hf.
      destruct Hf as [<-|[<-|[]]]; vm_compute in Hrs; [|done].
      injection Hrs as <-. apply list_elem_of_singleton in Hr as ->.
      by vm_compute.
  - apply (proj1 (proj2 (forms_similarTo (Sample.un_ly true true)
             (Sample.entry "cat" (Some ["A"; "B"])) "uncatly"
             ltac:(done))) ["A"; "B"] 1%nat eq_refl
             (proj2 (licensed_un_ly true true)) eq_refl).
  - apply (proj1 (proj2 (proj2 (forms_similarTo (Sample.un_ly true true)
             (Sample.entry "cat" (Some ["A"; "B"])) "uncatly"
             ltac:(done)))) ["A"; "B"] 0%nat eq_refl
             (proj1 (licensed_un_ly true true)) eq_refl).
Defined.

(** The pruning example of the spec. *)
Example forms_uncatly_dog :
  Word.forms (Sample.un_ly true true)
    (Sample.entry "cat" (Some ["A"; "B"])) (Some "uncatly")
  = ["cat"; "catly"; "uncatly"; "uncat"]
  ∧ Word.forms (Sample.un_ly true true)
      (Sample.entry "cat" (Some ["A"; "B"])) (Some "dog")
    = ["cat"].
Proof. by vm_compute. Qed.

(** ** [Dic] *)

Lemma elem_of_set_add (x y : loc) (s : list loc) :
  y ∈ Dic.set_add x s ↔ y ∈ s ∨ y = x.
Proof.
  unfold Dic.set_add. destruct (decide (x ∈ s)).
  - split; [by left|]. by intros [?| ->].
  - rewrite elem_of_app, list_elem_of_singleton. done.
Qed.

Lemma NoDup_set_add (x : loc) (s : list loc) :
  NoDup s → NoDup (Dic.set_add x s).
Proof.
  intros H. unfold Dic.set_add. destruct (decide (x ∈ s)); [done|].
  apply NoDup_app. split; [done|]. split; [|apply NoDup_singleton].
  intros y Hy ->%list_elem_of_singleton. done.
Qed.

Lemma elem_of_set_adds (xs s : list loc) (y : loc) :
  y ∈ foldl (λ words word, Dic.set_add word words) s xs ↔ y ∈ s ∨ y ∈ xs.
Proof.
  revert s. induction xs as [|x xs IH]; intros s; simpl.
  - rewrite elem_of_nil. tauto.
  - rewrite IH, elem_of_set_add, elem_of_cons. tauto.
Qed.

Lemma NoDup_set_adds (xs s : list loc) :
  NoDup s → NoDup (foldl (λ words word, Dic.set_add word words) s xs).
Proof.
  revert s. induction xs as [|x xs IH]; intros s H; simpl; [done|].
  by apply IH, NoDup_set_add.
Qed.

Lemma elem_of_set_delete (x y : loc) (s : list loc) :
  y ∈ Dic.set_delete x s ↔ y ∈ s ∧ y ≠ x.
Proof.
  unfold Dic.set_delete. rewrite elem_of_bool_filter, negb_true_iff.
  by rewrite bool_decide_eq_false.
Qed.

Lemma elem_of_set_deletes (xs s : list loc) (y : loc) :
  y ∈ foldl (λ s word, Dic.set_delete word s) s xs ↔ y ∈ s ∧ y ∉ xs.
Proof.
  revert s. induction xs as [|x xs IH]; intros s; simpl.
  - rewrite elem_of_nil. tauto.
  - rewrite IH, elem_of_set_delete, not_elem_of_cons. tauto.
Qed.

(** What [getFromindex] finds after [addToIndex]: what it found before,
    and the word under the stem it was added to. *)
Lemma getFromindex_addToIndex (idx : gmap string Dic.Entry) (s s' : string)
    (w l : loc) :
  l ∈ Dic.getFromindex (Dic.addToIndex idx s w) s' ↔
  l ∈ Dic.getFromindex idx s' ∨ (s' = s ∧ l = w).
Proof.
  unfold Dic.getFromindex, Dic.addToIndex.
  destruct (idx !! s) as [[c|ws]|] eqn:E;
    (destruct (decide (s' = s)) as [->|Hne];
     [rewrite lookup_insert_eq, E | rewrite lookup_insert_ne by done]);
    rewrite ?elem_of_toSet, ?elem_of_set_add, ?elem_of_cons, ?elem_of_nil;
    tauto.
Qed.

Lemma getFromindex_addToIndex_all (idx : gmap string Dic.Entry)
    (lowers : list string) (s' : string) (w l : loc) :
  l ∈ Dic.getFromindex
        (foldl (λ idx lowered, Dic.addToIndex idx lowered w) idx lowers) s' ↔
  l ∈ Dic.getFromindex idx s' ∨ (s' ∈ lowers ∧ l = w).
Proof.
  revert idx. induction lowers as [|lw lowers IH]; intros idx; simpl.
  - rewrite elem_of_nil. tauto.
  - rewrite IH, getFromindex_addToIndex, elem_of_cons. tauto.
Qed.

Lemma NoDup_getFromindex (idx : gmap string Dic.Entry) (s : string) :
  NoDup (Dic.getFromindex idx s).
Proof.
  unfold Dic.getFromindex.
  destruct (idx !! s) as [[c|ws]|]; try apply NoDup_toSet. apply NoDup_nil_2.
Qed.

Lemma getFromindex_delete (idx : gmap string Dic.Entry) (s s' : string) :
  Dic.getFromindex (delete s idx) s'
  = if decide (s' = s) then [] else Dic.getFromindex idx s'.
Proof.
  unfold Dic.getFromindex. destruct (decide (s' = s)) as [->|Hne].
  - by rewrite lookup_delete_eq.
  - by rewrite lookup_delete_ne.
Qed.

Lemma getFromindex_delete_all (idx : gmap string Dic.Entry)
    (lowers : list string) (s' : string) :
  Dic.getFromindex (foldl (λ idx lowered, delete lowered idx) idx lowers) s'
  = if decide (s' ∈ lowers) then [] else Dic.getFromindex idx s'.
Proof.
  revert idx. induction lowers as [|lw lowers IH]; intros idx; simpl.
  - destruct (decide (s' ∈ [])) as [H|_]; [by apply elem_of_nil in H|done].
  - rewrite IH, getFromindex_delete.
    repeat case_decide; try done; rewrite elem_of_cons in *; tauto.
Qed.

Lemma elem_of_lower_all (d : Dic.t) (lowers : list string) (ws : list loc)
    (l : loc) :
  l ∈ foldl (λ words lowered,
               foldl (λ words word, Dic.set_add word words) words
                 (Dic.getFromindex (Dic.lowercaseIndex d) lowered))
        ws lowers ↔
  l ∈ ws ∨ ∃ lowered, lowered ∈ lowers
                      ∧ l ∈ Dic.getFromindex (Dic.lowercaseIndex d) lowered.
Proof.
  revert ws. induction lowers as [|lw lowers IH]; intros ws; simpl.
  - split; [by left|]. by intros [?|(? & ?%elem_of_nil & _)].
  - rewrite IH, elem_of_set_adds. split.
    + intros [[?|?]|(x & ? & ?)]; [by left| |].
      * right. exists lw. split; [apply list_elem_of_here|done].
      * right. exists x. split; [by apply list_elem_of_further|done].
    + intros [?|(x & [->|?]%elem_of_cons & ?)]; [tauto|tauto|].
      right. by exists x.
Qed.

(** The homonyms of a stem: the words of its index entry, and with
    [ignorecase] those of the entries of its lowercase variants. *)
Lemma elem_of_homonyms (lower : string → list string) (d : Dic.t)
    (s : string) (ic : bool) (l : loc) :
  l ∈ Dic.homonyms lower d s ic ↔
  l ∈ Dic.getFromindex (Dic.index d) s
  ∨ (ic = true
     ∧ ∃ lowered, lowered ∈ lower s
                  ∧ l ∈ Dic.getFromindex (Dic.lowercaseIndex d) lowered).
Proof.
  unfold Dic.homonyms. destruct ic.
  - rewrite elem_of_lower_all. tauto.
  - split; [by left|]. by intros [?|[? _]].
Qed.

Section DicTheorems.

Variable obj : loc → Word.t.
Variable aff : Aff.t.
Variable lower : string → list string.

Lemma elem_of_homonyms_add (d : Dic.t) (w l : loc) (s : string) (ic : bool) :
  l ∈ Dic.homonyms lower (Dic.add obj aff lower d w) s ic ↔
  l ∈ Dic.homonyms lower d s ic
  ∨ (l = w ∧ (s = Word.stem (obj w)
              ∨ (ic = true ∧ lowercase_match obj aff lower s w))).
Proof.
  rewrite !elem_of_homonyms. unfold lowercase_match. simpl.
  rewrite getFromindex_addToIndex.
  destruct (Dic.not_NO (Aff.casing_guess aff (Word.stem (obj w)))).
  - setoid_rewrite getFromindex_addToIndex_all. split.
    + intros [[?|[-> ->]]|(Hic & lw & Hlw & [?|[? ->]])].
      * by left; left.
      * right. split; [done|by left].
      * left; right. split; [done|]. by exists lw.
      * right. split; [done|]. right. do 2 (split; [done|]). by exists lw.
    + intros [[?|(Hic & lw & ? & ?)]|[-> [->|(Hic & _ & lw & ? & ?)]]].
      * by left; left.
      * right. split; [done|]. exists lw. split; [done|by left].
      * by left; right.
      * right. split; [done|]. exists lw. split; [done|by right].
  - split.
    + intros [[?|[-> ->]]|(Hic & lw & Hlw & ?)].
      * by left; left.
      * right. split; [done|by left].
      * left; right. split; [done|]. by exists lw.
    + intros [[?|(Hic & lw & ? & ?)]|[-> [->|(_ & ? & _)]]]; [| | |done].
      * by left; left.
      * right. split; [done|]. by exists lw.
      * by left; right.
Qed.

Lemma Dic_of_snoc (ws : list loc) (w : loc) :
  Dic_of obj aff lower (ws ++ [w])
  = Dic.add obj aff lower (Dic_of obj aff lower ws) w.
Proof. unfold Dic_of. by rewrite foldl_snoc. Qed.

(** X1. After [add(word)] the homonyms of a stem are those it had
    before, and the word itself where the stem is the word's stem or,
    with [ignorecase], shares a lowercase variant with a word stem that
    is not all lowercase: nothing indexed earlier is lost. The word is
    also in [words]. *)
Theorem homonyms_add (d : Dic.t) (w l : loc) (s : string) (ic : bool) :
  (l ∈ Dic.homonyms lower (Dic.add obj aff lower d w) s ic ↔
   l ∈ Dic.homonyms lower d s ic
   ∨ (l = w ∧ (s = Word.stem (obj w)
               ∨ (ic = true ∧ lowercase_match obj aff lower s w))))
  ∧ (l ∈ Dic.words (Dic.add obj aff lower d w) ↔ l ∈ Dic.words d ∨ l = w).
Proof. split; [apply elem_of_homonyms_add|apply elem_of_set_add]. Qed.

(** X2. In a dictionary that was filled by [add] alone, [words] holds
    the added words, [homonyms(stem)] holds exactly the added words with
    that stem, and [homonyms(stem, true)] holds those and the added
    words, not all lowercase, that share a lowercase variant with the
    stem. *)
Theorem homonyms_of_added (ws : list loc) (l : loc) (s : string) :
  let d := Dic_of obj aff lower ws in
  (l ∈ Dic.words d ↔ l ∈ ws)
  ∧ (l ∈ Dic.homonyms lower d s false ↔ l ∈ ws ∧ Word.stem (obj l) = s)
  ∧ (l ∈ Dic.homonyms lower d s true ↔
     l ∈ ws ∧ (Word.stem (obj l) = s ∨ lowercase_match obj aff lower s l)).
Proof.
  cbn zeta. induction ws as [|w ws IH] using rev_ind.
  - unfold Dic_of. cbn [foldl]. rewrite !elem_of_homonyms.
    unfold Dic.getFromindex. simpl. setoid_rewrite lookup_empty.
    rewrite !elem_of_nil. split; [done|].
    split; (split; [|tauto]).
    + by intros [?|[? _]].
    + by intros [?|(_ & ? & _ & ?%elem_of_nil)].
  - destruct IH as (IH1 & IH2 & IH3).
    rewrite Dic_of_snoc, !elem_of_homonyms_add, IH2, IH3. simpl.
    rewrite elem_of_set_add, IH1, !elem_of_app, !list_elem_of_singleton.
    split; [done|]. split; split; intros H; intuition (subst; auto; done).
Qed.

(** X3. After [remove(stem)] the stem has no homonyms, with and without
    [ignorecase]; [words] loses exactly the words that were its
    homonyms with [ignorecase]; and the homonyms of every other stem
    are as before. *)
Theorem homonyms_remove (d : Dic.t) (s : string) :
  (∀ ic, Dic.homonyms lower (Dic.remove lower d s) s ic = [])
  ∧ (∀ l, l ∈ Dic.words (Dic.remove lower d s) ↔
          l ∈ Dic.words d ∧ l ∉ Dic.homonyms lower d s true)
  ∧ (∀ s', s' ≠ s →
       Dic.homonyms lower (Dic.remove lower d s) s' false
       = Dic.homonyms lower d s' false).
Proof.
  split; [|split].
  - intros ic. apply elem_of_nil_inv. intros l.
    rewrite elem_of_homonyms. simpl.
    rewrite getFromindex_delete, decide_True by done.
    intros [[]%elem_of_nil|(_ & lw & Hlw & Hl)].
    rewrite getFromindex_delete_all, decide_True in Hl by done.
    by apply elem_of_nil in Hl.
  - intros l. simpl. apply elem_of_set_deletes.
  - intros s' Hne. unfold Dic.homonyms. simpl.
    by rewrite getFromindex_delete, decide_False.
Qed.

(** X4. [remove] of a stem that has no homonyms, with [ignorecase],
    changes nothing that can be observed: [words] and the homonyms of
    every stem, in both modes, are as before. *)
Theorem remove_unknown (d : Dic.t) (s : string) :
  Dic.homonyms lower d s true = [] →
  Dic.words (Dic.remove lower d s) = Dic.words d
  ∧ ∀ s' ic, Dic.homonyms lower (Dic.remove lower d s) s' ic
             = Dic.homonyms lower d s' ic.
Proof.
  intros Hnone.
  assert (Dic.getFromindex (Dic.index d) s = []) as Hidx.
  { apply elem_of_nil_inv. intros l Hl.
    assert (l ∈ Dic.homonyms lower d s true) as Hin
      by (apply elem_of_homonyms; by left).
    rewrite Hnone in Hin. by apply elem_of_nil in Hin. }
  assert (∀ lw, lw ∈ lower s →
            Dic.getFromindex (Dic.lowercaseIndex d) lw = []) as Hlow.
  { intros lw Hlw. apply elem_of_nil_inv. intros l Hl.
    assert (l ∈ Dic.homonyms lower d s true) as Hin
      by (apply elem_of_homonyms; right; eauto).
    rewrite Hnone in Hin. by apply elem_of_nil in Hin. }
  split.
  - unfold Dic.remove. cbn [Dic.words]. by rewrite Hnone.
  - intros s' ic. unfold Dic.homonyms. simpl.
    assert (Dic.getFromindex (delete s (Dic.index d)) s'
            = Dic.getFromindex (Dic.index d) s') as ->.
    { rewrite getFromindex_delete. by case_decide; subst. }
    destruct ic; [|done]. generalize (Dic.getFromindex (Dic.index d) s').
    induction (lower s') as [|lw lws IH]; intros acc; simpl; [done|].
    rewrite IH. do 2 f_equal.
    rewrite getFromindex_delete_all. case_decide; [|done].
    symmetry. by apply Hlow.
Qed.

Lemma hasFlag_loop_any (f : Flag) (flagged : bool) (ws : list loc) :
  Dic.hasFlag_loop obj f false flagged ws = true ↔
  ∃ l, l ∈ ws ∧ Word.has (obj l) (Some f) = true.
Proof.
  revert flagged. induction ws as [|w ws IH]; intros flagged.
  - simpl. split; [done|]. by intros (? & ?%elem_of_nil & _).
  - cbn [Dic.hasFlag_loop]. cbn zeta.
    destruct (Word.has (obj w) (Some f)) eqn:E; cbn [andb negb].
    + split; [|done]. intros _. exists w. split; [apply list_elem_of_here|done].
    + rewrite IH. split.
      * intros (l & ? & ?). exists l. split; [by apply list_elem_of_further|done].
      * intros (l & [->|?]%elem_of_cons & Hl); [congruence|eauto].
Qed.

Lemma hasFlag_loop_all (f : Flag) (flagged : bool) (ws : list loc) :
  Dic.hasFlag_loop obj f true flagged ws = true ↔
  (∀ l, l ∈ ws → Word.has (obj l) (Some f) = true)
  ∧ (flagged = true ∨ ws ≠ []).
Proof.
  revert flagged. induction ws as [|w ws IH]; intros flagged.
  - simpl. split.
    + intros ->. split; [by intros ? ?%elem_of_nil|by left].
    + by intros [_ [->|?]].
  - cbn [Dic.hasFlag_loop]. cbn zeta.
    destruct (Word.has (obj w) (Some f)) eqn:E; cbn [andb negb].
    + rewrite IH. split.
      * intros [H _]. split; [|by right].
        intros l [->|?]%elem_of_cons; [done|by apply H].
      * intros [H _]. split; [|by left].
        intros l Hl. apply H. by apply list_elem_of_further.
    + split; [done|]. intros [H _].
      rewrite (H w) in E by apply list_elem_of_here. done.
Qed.

(** X5. [hasFlag] is false for an undefined flag. For a flag, in the
    default mode it is true exactly when some homonym of the stem (case
    sensitive) has the flag; with [all] it is true exactly when the stem
    has a homonym and every homonym has the flag. *)
Theorem hasFlag_any_all (d : Dic.t) (s : string) (f : Flag) :
  (∀ all, Dic.hasFlag obj lower d s None all = false)
  ∧ (Dic.hasFlag obj lower d s (Some f) false = true ↔
     ∃ l, l ∈ Dic.homonyms lower d s false
          ∧ Word.has (obj l) (Some f) = true)
  ∧ (Dic.hasFlag obj lower d s (Some f) true = true ↔
     Dic.homonyms lower d s false ≠ []
     ∧ ∀ l, l ∈ Dic.homonyms lower d s false →
            Word.has (obj l) (Some f) = true).
Proof.
  unfold Dic.hasFlag. split; [done|]. split.
  - apply hasFlag_loop_any.
  - rewrite hasFlag_loop_all. split.
    + intros [H [?|?]]; done.
    + intros [? H]. split; [done|by right].
Qed.

(** X6. The homonyms of a stem never hold a word twice, and asking with
    [ignorecase] never loses a word found without it. *)
Theorem homonyms_set (d : Dic.t) (s : string) :
  (∀ ic, NoDup (Dic.homonyms lower d s ic))
  ∧ (∀ l, l ∈ Dic.homonyms lower d s false →
          l ∈ Dic.homonyms lower d s true).
Proof.
  split.
  - intros ic. unfold Dic.homonyms.
    pose proof (NoDup_getFromindex (Dic.index d) s) as H.
    destruct ic; [|done]. revert H.
    generalize (Dic.getFromindex (Dic.index d) s).
    induction (lower s) as [|lw lws IH]; intros acc H; simpl; [done|].
    by apply IH, NoDup_set_adds.
  - intros l. rewrite !elem_of_homonyms. intros [?|[? _]]; [by left|done].
Qed.

End DicTheorems.

(** ** [LKWord]: handles and their words *)

(** X7. Every handle obtained from a handle by [to], [shift], [slice]
    and [add], in any number and order, refers to the same rule set and
    the same dictionary as the handle it came from. *)
Theorem derived_same_context (w0 w : LKWord.t) :
  LKWord_derived w0 w →
  LKWord.aff w = LKWord.aff w0 ∧ LKWord.dic w = LKWord.dic w0.
Proof. induction 1; simpl; tauto. Qed.

Lemma derived_same_context_witness :
  let w := LKWord.add
             (LKWord.shift
                (LKWord.slice Sample.cat_handle (Some 1) None) BEGIN)
             (inl "s") in
  LKWord.word w = "ats"
  ∧ LKWord.aff w = LKWord.aff Sample.cat_handle
  ∧ LKWord.dic w = LKWord.dic Sample.cat_handle.
Proof.
  split; [reflexivity|].
  apply (derived_same_context Sample.cat_handle).
  apply derived_add, derived_shift, derived_slice, derived_self.
Defined.

Lemma substring_split (s : string) (c : nat) :
  (c ≤ String.length s)%nat →
  String.substring 0 c s +:+ String.substring c (String.length s - c) s = s.
Proof.
  revert c. induction s as [|x s IH]; intros c Hc.
  - by destruct c.
  - destruct c as [|c].
    + cbn [String.substring]. rewrite Nat.sub_0_r.
      change (String.substring 0 (String.length (String x s)) (String x s)
              = String x s). apply substring_all.
    + cbn [String.substring String.length Nat.sub].
      rewrite append_cons, IH; [done|]. simpl in Hc. lia.
Qed.

Lemma clamp_range (len i : Z) : 0 ≤ len → 0 ≤ JS.clamp len i ≤ len.
Proof. unfold JS.clamp. destruct (Z.ltb_spec i 0); lia. Qed.

(** X8. Cutting a handle at any index and adding the two parts gives the
    handle back: [w.slice(0, n).add(w.slice(n))] equals [w] in its word
    and in all of its context, for every integer [n], negative and out
    of range included. *)
Theorem slice_add_restores (w : LKWord.t) (n : Z) :
  LKWord.add (LKWord.slice w (Some 0) (Some n))
    (inr (LKWord.slice w (Some n) None)) = w.
Proof.
  destruct w as [a d s t p].
  unfold LKWord.add, LKWord.slice, LKWord.to. simpl. f_equal.
  unfold JS.slice.
  pose proof (clamp_range (Z.of_nat (String.length s)) n
                ltac:(lia)) as Hc.
  replace (JS.clamp _ 0) with 0 by (unfold JS.clamp; simpl; lia).
  rewrite Z.sub_0_r.
  replace (Z.to_nat (Z.of_nat (String.length s) - JS.clamp _ n))
    with (String.length s - Z.to_nat (JS.clamp (Z.of_nat (String.length s)) n))%nat
    by lia.
  apply substring_split. lia.
Qed.

(** X9. A slice is never longer than the word, and for indexes
    [0 <= i <= j <= length] its length is [j - i]. *)
Theorem slice_length (w : LKWord.t) (a b : option Z) :
  (LKWord.length (LKWord.slice w a b) ≤ LKWord.length w)%nat
  ∧ ∀ i j, a = Some i → b = Some j →
      0 ≤ i ≤ j → j ≤ Z.of_nat (LKWord.length w) →
      Z.of_nat (LKWord.length (LKWord.slice w a b)) = j - i.
Proof.
  unfold LKWord.length, LKWord.slice, LKWord.to, JS.slice. simpl.
  rewrite length_substring. split; [lia|].
  intros i j -> -> Hij Hj. simpl. unfold JS.clamp.
  destruct (Z.ltb_spec i 0), (Z.ltb_spec j 0); lia.
Qed.

(** Write the substring of the goal with the given start and count. *)
Ltac substring_is a m :=
  match goal with
  | |- context [String.substring ?a0 ?m0 ?s] =>
      replace (String.substring a0 m0 s) with (String.substring a m s)
        by (f_equal; lia)
  end.

Lemma substring_one (s : string) (n : nat) :
  String.substring n 1 s
  = match String.get n s with Some c => String c "" | None => "" end.
Proof.
  revert n. induction s as [|x s IH]; intros [|n]; simpl; try done.
  by rewrite substring_zero.
Qed.

(** X10. For every index other than [-1], [at(n)] is the one-character
    slice [slice(n, n + 1)], and [undefined] where that slice is empty.
    (At [-1] the slice [slice(-1, 0)] is empty, while [at] gives the last
    character.) *)
Theorem at_is_slice (w : LKWord.t) (n : Z) :
  n ≠ -1 →
  LKWord.at_ w n
  = match LKWord.word (LKWord.slice w (Some n) (Some (n + 1))) with
    | EmptyString => None
    | c => Some c
    end.
Proof.
  intros Hn. unfold LKWord.at_, LKWord.slice, LKWord.to, JS.slice. simpl.
  set (L := Z.of_nat (String.length (LKWord.word w))).
  unfold JS.clamp, JS.index.
  destruct (Z.ltb_spec n 0), (Z.ltb_spec (n + 1) 0); try lia.
  - destruct (Z.ltb_spec (L + n) 0).
    + substring_is 0%nat 0%nat. by rewrite substring_zero.
    + substring_is (Z.to_nat (L + n)) 1%nat.
      rewrite substring_one. by destruct (String.get _ _).
  - destruct (decide (n < L)).
    + substring_is (Z.to_nat n) 1%nat.
      rewrite substring_one. by destruct (String.get _ _).
    + rewrite get_ge by (subst L; lia).
      substring_is (Z.to_nat L) 0%nat. by rewrite substring_zero.
Qed.

Lemma at_is_slice_witness :
  LKWord.at_ Sample.cat_handle (-2) = Some "a"
  ∧ LKWord.at_ Sample.cat_handle 5 = None.
Proof.
  split.
  - exact (at_is_slice Sample.cat_handle (-2) ltac:(lia)).
  - exact (at_is_slice Sample.cat_handle 5 ltac:(lia)).
Defined.

(** ** [AffixForm]: more on [has], [replace] and [flags] *)

(** X11. [has(flag)] is true exactly when the form has an outer prefix
    or an outer suffix and every affix it has, inner ones included,
    carries the flag. A form with inner affixes alone never has a
    flag. *)
Theorem has_iff (rule : loc → Affix.t) (f : AffixForm.t) (flag : Flag) :
  AffixForm.has rule f flag = true ↔
  (is_Some (AffixForm.prefix f) ∨ is_Some (AffixForm.suffix f))
  ∧ ∀ a, a ∈ AffixForm.affixes f → Affix.has (rule a) flag = true.
Proof.
  unfold AffixForm.has.
  destruct (AffixForm.hasAffixes f) eqn:E; cbn [negb].
  - rewrite forallb_forall. setoid_rewrite list_elem_of_In. split.
    + intros H. split; [|done]. unfold AffixForm.hasAffixes in E.
      apply bool_decide_eq_true in E.
      destruct (AffixForm.suffix f), (AffixForm.prefix f); simpl in E;
        eauto; by destruct E.
    + by intros [_ H].
  - apply hasAffixes_false in E as [-> ->]. split; [done|].
    intros [[[? ?]|[? ?]] _]; done.
Qed.

(** X12. [replace] never clears a field: an affix or dictionary word
    that the form has is still there afterwards, whatever the overrides,
    so the form keeps having affixes and has at least as many. *)
Theorem replace_keeps_fields (h : AffixForm.t) (o : AffixForm.ReplaceOpts) :
  let h' := AffixForm.replace h o in
  (is_Some (AffixForm.prefix h) → is_Some (AffixForm.prefix h'))
  ∧ (is_Some (AffixForm.suffix h) → is_Some (AffixForm.suffix h'))
  ∧ (is_Some (AffixForm.prefix2 h) → is_Some (AffixForm.prefix2 h'))
  ∧ (is_Some (AffixForm.suffix2 h) → is_Some (AffixForm.suffix2 h'))
  ∧ (is_Some (AffixForm.inDictionary h) →
     is_Some (AffixForm.inDictionary h'))
  ∧ (AffixForm.hasAffixes h = true → AffixForm.hasAffixes h' = true)
  ∧ (length (AffixForm.affixes h) ≤ length (AffixForm.affixes h'))%nat.
Proof.
  destruct h as [t s p sx p2 s2 d], o as [ot os [op osx op2 os2 od]].
  unfold AffixForm.replace, AffixForm.new, AffixForm.hasAffixes,
    AffixForm.affixes. simpl.
  repeat split.
  - destruct op; simpl; eauto.
  - destruct osx; simpl; eauto.
  - destruct op2; simpl; eauto.
  - destruct os2; simpl; eauto.
  - destruct od; simpl; eauto.
  - rewrite !bool_decide_eq_true.
    destruct sx, p, osx, op; simpl; eauto; by intros [? ?].
  - destruct p, sx, p2, s2, op, osx, op2, os2; simpl; lia.
Qed.

(** X13. [replace] with no overrides returns a form equal to the
    original, and two [replace] in a row equal one [replace] with the
    later overrides laid over the earlier ones. *)
Theorem replace_compose (h : AffixForm.t) (o1 o2 : AffixForm.ReplaceOpts) :
  AffixForm.replace h no_overrides = h
  ∧ AffixForm.replace (AffixForm.replace h o1) o2
    = AffixForm.replace h (overrides_over o2 o1).
Proof.
  destruct h as [t s p sx p2 s2 d].
  destruct o1 as [t1 st1 [a1 b1 c1 d1 e1]], o2 as [t2 st2 [a2 b2 c2 d2 e2]].
  unfold AffixForm.replace, AffixForm.new, overrides_over, no_overrides.
  simpl. split; [done|].
  f_equal.
  - by destruct t2 as [[?|?]|], t1 as [[?|?]|].
  - by destruct st2, st1.
  - by destruct a2, a1.
  - by destruct b2, b1.
  - by destruct c2, c1.
  - by destruct d2, d1.
  - by destruct e2, e1.
Qed.

(** X14. The flags of a form depend on its dictionary word and its outer
    affixes alone: a [replace] that overrides [text], [stem], [prefix2]
    or [suffix2] and nothing else leaves [flags] as it was. A form with
    neither outer affix has the flags of its dictionary word, or none. *)
Theorem flags_ignore_inner (concat : list string → list string → list string)
    (rule : loc → Affix.t) (word : loc → Word.t) (h : AffixForm.t)
    (o : AffixForm.ReplaceOpts) :
  AffixForm.o_prefix (AffixForm.r_opts o) = None →
  AffixForm.o_suffix (AffixForm.r_opts o) = None →
  AffixForm.o_inDictionary (AffixForm.r_opts o) = None →
  AffixFormFlags.flags concat rule word (AffixForm.replace h o)
  = AffixFormFlags.flags concat rule word h
  ∧ (AffixForm.prefix h = None → AffixForm.suffix h = None →
     AffixFormFlags.flags concat rule word (AffixForm.replace h o)
     = default [] (AffixForm.inDictionary h ≫= λ l, Word.flags (word l))).
Proof.
  destruct h as [t s p sx p2 s2 d], o as [ot os [op osx op2 os2 od]].
  simpl. intros -> -> ->. split; [done|]. by intros -> ->.
Qed.

Lemma flags_ignore_inner_witness :
  AffixFormFlags.flags app Sample.flagged_rule (λ _, Sample.entry "cat" None)
    (AffixForm.replace (Sample.cats (Some 1%nat)) Sample.stem_x)
  = ["F"].
Proof.
  exact (proj1 (flags_ignore_inner app Sample.flagged_rule
                  (λ _, Sample.entry "cat" None) (Sample.cats (Some 1%nat))
                  Sample.stem_x eq_refl eq_refl eq_refl)).
Defined.

(** ** [Word.forms]: pruning, multiplicity and sizes *)

(** X15. Pruning only removes: every form of [forms(similarTo)] is a
    form of [forms()], for every argument, and an empty [similarTo]
    prunes nothing, [forms("")] being [forms()]. *)
Theorem forms_pruned_subset (aff : Aff.t) (w : Word.t)
    (similarTo : option string) :
  (∀ x, x ∈ Word.forms aff w similarTo → x ∈ Word.forms aff w None)
  ∧ Word.forms aff w (Some "") = Word.forms aff w None.
Proof.
  split; [|done]. intros x.
  destruct (Word.flags w) as [fl|] eqn:Hfl.
  - rewrite !(elem_of_forms aff w _ fl x Hfl).
    intros [?|[(s & [? _] & ?)|[(p & s & [? _] & [? _] & ? & ?)
                               |(p & [? _] & ?)]]].
    + by left.
    + right; left. by exists s.
    + right; right; left. by exists p, s.
    + right; right; right. by exists p.
  - unfold Word.forms. by rewrite Hfl.
Qed.

Lemma NoDup_bool_filter {A} (f : A → bool) (l : list A) :
  NoDup l → NoDup (List.filter f l).
Proof.
  induction 1 as [|x l Hx _ IH]; simpl; [apply NoDup_nil_2|].
  destruct (f x); [|done]. apply NoDup_cons. split; [|done].
  rewrite elem_of_bool_filter. tauto.
Qed.

Lemma NoDup_pairs {A B} (g : A → list B) (ps : list A) :
  NoDup ps → (∀ p, NoDup (g p)) →
  NoDup (concat ((λ p, (λ s, (p, s)) <$> g p) <$> ps)).
Proof.
  intros Hps Hg. induction Hps as [|p ps Hp _ IH]; simpl; [apply NoDup_nil_2|].
  apply NoDup_app. split; [|split; [|done]].
  - apply NoDup_fmap_2; [|done]. by intros ? ? [=].
  - intros [p' s] Hin Hin'.
    apply list_elem_of_fmap in Hin as (? & [= -> ->] & _).
    apply elem_of_concat in Hin' as (l & Hl & Hin').
    apply list_elem_of_fmap in Hl as (p' & -> & Hp').
    apply list_elem_of_fmap in Hin' as (? & [= -> ->] & _). done.
Qed.

(** X16. A rule gives at most one form of each kind, also when several
    flags of the entry license it: the surviving suffixes, the surviving
    prefixes and the crossed pairs are free of duplicates. *)
Theorem forms_rules_once (aff : Aff.t) (w : Word.t)
    (similarTo : option string) (fl : Flags) :
  NoDup (Word.suffixes aff w similarTo fl)
  ∧ NoDup (Word.prefixes aff w similarTo fl)
  ∧ NoDup (Word.cross aff w similarTo fl).
Proof.
  assert (∀ table, NoDup (Word.candidates table (Aff.rule aff) fl (Word.stem w)))
    as Hc by (intros; apply NoDup_toSet).
  split; [by apply NoDup_bool_filter|].
  split; [by apply NoDup_bool_filter|].
  unfold Word.cross.
  apply (NoDup_pairs
           (λ p, List.filter
                   (λ s, Affix.crossproduct (Aff.rule aff s)
                         && Affix.crossproduct (Aff.rule aff p))
                   (Word.suffixes aff w similarTo fl))).
  - by apply NoDup_bool_filter.
  - intros p. by apply NoDup_bool_filter, NoDup_bool_filter.
Qed.

Lemma length_cross_rows {A B} (x : A → bool) (y : B → bool) (ps : list A)
    (ss : list B) :
  length (concat ((λ p, (λ s, (p, s)) <$> List.filter (λ s, y s && x p) ss)
                  <$> ps))
  = (length (List.filter x ps) * length (List.filter y ss))%nat.
Proof.
  induction ps as [|p ps IH]; [done|].
  rewrite fmap_cons. cbn [concat List.filter].
  rewrite length_app, length_fmap, IH. destruct (x p); simpl.
  - f_equal. f_equal. apply filter_ext. intros s. apply andb_true_r.
  - rewrite (bool_filter_nil (λ s, y s && false)); [done|].
    intros s _. apply andb_false_r.
Qed.

(** X17. The number of forms: one for the stem, one for each surviving
    suffix, one for each surviving prefix, and for the crossed forms the
    number of eligible surviving prefixes times the number of eligible
    surviving suffixes. *)
Theorem forms_count (aff : Aff.t) (w : Word.t) (similarTo : option string)
    (fl : Flags) :
  Word.flags w = Some fl →
  let eligible r := Affix.crossproduct (Aff.rule aff r) in
  let ss := Word.suffixes aff w similarTo fl in
  let ps := Word.prefixes aff w similarTo fl in
  length (Word.forms aff w similarTo)
  = (1 + length ss + length ps
     + length (List.filter eligible ps) * length (List.filter eligible ss))%nat
  ∧ head (Word.forms aff w similarTo) = Some (Word.stem w).
Proof.
  intros Hfl. cbn zeta. unfold Word.forms. rewrite Hfl.
  split; [|done]. simpl.
  rewrite !length_app, !length_fmap. unfold Word.cross.
  rewrite (length_cross_rows
             (λ p, Affix.crossproduct (Aff.rule aff p))
             (λ s, Affix.crossproduct (Aff.rule aff s))).
  lia.
Qed.

Lemma forms_count_witness :
  length (Word.forms (Sample.un_ly true true)
            (Sample.entry "cat" (Some ["A"; "B"])) None) = 4%nat
  ∧ length (Word.forms (Sample.un_ly true false)
              (Sample.entry "cat" (Some ["A"; "B"])) None) = 3%nat.
Proof.
  split.
  - exact (proj1 (forms_count (Sample.un_ly true true)
                    (Sample.entry "cat" (Some ["A"; "B"])) None ["A"; "B"]
                    eq_refl)).
  - exact (proj1 (forms_count (Sample.un_ly true false)
                    (Sample.entry "cat" (Some ["A"; "B"])) None ["A"; "B"]
                    eq_refl)).
Defined.

Lemma length_append (a b : string) :
  String.length (a +:+ b) = (String.length a + String.length b)%nat.
Proof.
  induction a as [|c a IH]; [done|]. rewrite append_cons. simpl. by rewrite IH.
Qed.

Lemma length_trimmed (aff : Aff.t) (stm : string) (p s : option loc) :
  String.length (trimmed aff stm p s)
  = (String.length stm
     - from_option (λ r, String.length (Affix.strip (Aff.rule aff r))) 0%nat p
     - from_option (λ r, String.length (Affix.strip (Aff.rule aff r))) 0%nat s)%nat.
Proof.
  unfold trimmed, drop_end, drop_start. rewrite !length_substring. lia.
Qed.

(** X18. The length of a form is the length of the texts added plus what
    the strips leave of the stem; strips that together are longer than
    the stem leave an empty root, never an error. *)
Theorem forms_lengths (aff : Aff.t) (w : Word.t) (p s : loc) :
  let len r := String.length (Affix.strip (Aff.rule aff r)) in
  let added r := String.length (Affix.add (Aff.rule aff r)) in
  let n := String.length (Word.stem w) in
  String.length (Word.suffix_form aff w s) = (n - len s + added s)%nat
  ∧ String.length (Word.prefix_form aff w p) = (added p + (n - len p))%nat
  ∧ String.length (Word.cross_form aff w (p, s))
    = (added p + (n - len p - len s) + added s)%nat.
Proof.
  cbn zeta.
  rewrite suffix_form_trimmed, prefix_form_trimmed, cross_form_crossed.
  unfold crossed. rewrite !length_append, !length_trimmed. simpl. lia.
Qed.

(** ** The [Word] constructor: what a line does and does not change *)

Lemma same_rules_refl (a : Aff.t) : same_rules a a.
Proof. by repeat split. Qed.

Lemma same_rules_REP_add (p : RepPattern) (a : Aff.t) :
  same_rules a (Aff.REP_add p a).
Proof. by repeat split. Qed.

Lemma same_rules_trans (a b c : Aff.t) :
  same_rules a b → same_rules b c → same_rules a c.
Proof.
  unfold same_rules. intros (?&?&?&?&?&?&?) (?&?&?&?&?&?&?).
  repeat split; congruence.
Qed.

(** The [ph] branch writes to [altSpellings] and [REP] alone. *)
Lemma ph_frame (value : string) (st : Word.t * Aff.t) :
  let st' := Word.ph value st in
  Word.stem st'.1 = Word.stem st.1 ∧ Word.capType st'.1 = Word.capType st.1
  ∧ Word.flags st'.1 = Word.flags st.1 ∧ Word.data st'.1 = Word.data st.1
  ∧ Word.sets st'.1 = Word.sets st.1 ∧ same_rules st.2 st'.2.
Proof.
  destruct st as [w aff]. unfold Word.ph.
  destruct (JS.endsWith value "*").
  { repeat split. }
  destruct (JS.includes value "->").
  - destruct (JS.split value "->") as [|from [|to rest]]; repeat split.
  - repeat split.
Qed.

Lemma data_add_head (k_get k_set v : string) (w : Word.t) :
  Word.stem (Word.data_add k_get k_set v w) = Word.stem w
  ∧ Word.capType (Word.data_add k_get k_set v w) = Word.capType w
  ∧ Word.flags (Word.data_add k_get k_set v w) = Word.flags w
  ∧ Word.altSpellings (Word.data_add k_get k_set v w) = Word.altSpellings w.
Proof.
  unfold Word.data_add. by destruct (default ∅ (Word.data w) !! k_get).
Qed.

Lemma data_adds_head (k : string) (strs : list string) (w : Word.t) :
  let w' := foldl (λ w str, Word.data_add k k str w) w strs in
  Word.stem w' = Word.stem w ∧ Word.capType w' = Word.capType w
  ∧ Word.flags w' = Word.flags w
  ∧ Word.altSpellings w' = Word.altSpellings w.
Proof.
  cbn zeta. revert w. induction strs as [|x strs IH]; intros w; simpl; [done|].
  destruct (IH (Word.data_add k k x w)) as (-> & -> & -> & ->).
  apply data_add_head.
Qed.

Lemma token_frame (SPLIT_DATA_REGEX : string → option (string * string))
    (tok : string) (st : Word.t * Aff.t) :
  let st' := Word.token SPLIT_DATA_REGEX tok st in
  Word.stem st'.1 = Word.stem st.1 ∧ Word.capType st'.1 = Word.capType st.1
  ∧ Word.flags st'.1 = Word.flags st.1 ∧ same_rules st.2 st'.2.
Proof.
  cbn zeta. unfold Word.token.
  destruct (SPLIT_DATA_REGEX tok) as [[key value]|].
  - destruct (data_add_head value key value st.1) as (Hs & Hc & Hf & _).
    destruct (String.eqb key "ph").
    + destruct (ph_frame value (Word.data_add value key value st.1, st.2))
        as (-> & -> & -> & _ & _ & ?). done.
    + split; [done|]. split; [done|]. split; [done|]. apply same_rules_refl.
  - destruct (JS.test_digits tok);
      [|repeat split; apply same_rules_refl].
    destruct (JS.array_get _ _); [|repeat split; apply same_rules_refl].
    destruct (data_adds_head tok (for_in_keys a) st.1) as (? & ? & ? & _).
    simpl. split; [done|]. split; [done|]. split; [done|].
    apply same_rules_refl.
Qed.

Lemma tokens_frame (SPLIT_DATA_REGEX : string → option (string * string))
    (kvs : list string) (st : Word.t * Aff.t) :
  let st' := Word.tokens SPLIT_DATA_REGEX kvs st in
  Word.stem st'.1 = Word.stem st.1 ∧ Word.capType st'.1 = Word.capType st.1
  ∧ Word.flags st'.1 = Word.flags st.1 ∧ same_rules st.2 st'.2.
Proof.
  cbn zeta. unfold Word.tokens. revert st.
  induction kvs as [|kv kvs IH]; intros st; simpl.
  - repeat split; apply same_rules_refl.
  - destruct (IH (Word.token SPLIT_DATA_REGEX kv st)) as (-> & -> & -> & H2).
    destruct (token_frame SPLIT_DATA_REGEX kv st) as (-> & -> & -> & H1).
    do 3 (split; [done|]). by eapply same_rules_trans.
Qed.

(** X19. The constructor throws a [SyntaxError] when the line does not
    match the line regex. Whenever it returns a word, the line matched
    the regex; the stem, the capitalisation type and the flags of the
    word come from the first two groups alone; the rule set is changed
    in [REP] at most, where patterns are appended and none is removed;
    and without a data segment the rule set is untouched and the word
    has neither [data] nor [altSpellings]. *)
Theorem new_outcome
    (SPLIT_WORD_REGEX :
       string → option (string * option string * option string))
    (SPLIT_DATA_REGEX : string → option (string * string))
    (split : string → list string) (line : string) (aff : Aff.t) :
  let result := Word.new SPLIT_WORD_REGEX SPLIT_DATA_REGEX split line aff in
  (SPLIT_WORD_REGEX (JS.replaceAll line "\/" "_||_") = None →
   ∃ msg, result = Word.SyntaxError msg)
  ∧ ∀ w aff', result = Word.Ok (w, aff') →
      ∃ stm fl dat,
        SPLIT_WORD_REGEX (JS.replaceAll line "\/" "_||_")
          = Some (stm, fl, dat)
        ∧ Word.stem w = Aff.ignore aff (JS.replaceAll stm "_||_" "/")
        ∧ Word.capType w = Aff.casing_guess aff (Word.stem w)
        ∧ Word.flags w = Aff.parseFlags aff <$> truthy fl
        ∧ same_rules aff aff'
        ∧ (∃ added, Aff.REP aff' = Aff.REP aff ++ added)
        ∧ (truthy dat = None →
           aff' = aff ∧ Word.data w = None ∧ Word.altSpellings w = None).
Proof.
  cbn zeta. unfold Word.new.
  destruct (SPLIT_WORD_REGEX _) as [[[stm fl] dat]|]; split; try done.
  - intros w aff' Hres. exists stm, fl, dat. split; [done|].
    destruct (truthy dat) as [d|] eqn:Hd.
    + match type of Hres with
      | context [Word.tokens _ _ ?st] =>
          pose proof (tokens_frame SPLIT_DATA_REGEX (split d) st)
            as (Hs & Hc & Hf & Hr);
          pose proof (tokens_stem_REP SPLIT_DATA_REGEX (split d) st)
            as [_ Hrep]
      end.
      injection Hres as Hres. rewrite Hres in Hs, Hc, Hf, Hr, Hrep.
      simpl in *. rewrite Hc, Hs, Hf. by do 5 (split; [done|]).
    + injection Hres as <- <-. simpl.
      do 3 (split; [done|]). split; [apply same_rules_refl|].
      split; [|done]. exists []. by rewrite app_nil_r.
  - eauto.
Qed.

(** X20. A token that is neither a [key:value] pair nor a number that
    names an entry of the alias table changes nothing; the numbers 0 and
    those beyond the table are among these. *)
Theorem token_ignored (SPLIT_DATA_REGEX : string → option (string * string))
    (tok : string) (st : Word.t * Aff.t) :
  SPLIT_DATA_REGEX tok = None →
  JS.test_digits tok = false ∨ JS.parseInt tok < 1
  ∨ Z.of_nat (length (Aff.AM st.2)) < JS.parseInt tok →
  Word.token SPLIT_DATA_REGEX tok st = st.
Proof.
  intros Hnone Hcase. unfold Word.token. rewrite Hnone.
  destruct (JS.test_digits tok); [|done].
  destruct Hcase as [?|Hcase]; [done|].
  unfold JS.array_get.
  destruct (Z.ltb_spec (JS.parseInt tok - 1) 0); [done|].
  rewrite lookup_ge_None_2; [done|lia].
Qed.

Lemma token_ignored_witness :
  Word.token Grammar.SPLIT_DATA_REGEX "0"
    (Sample.entry "cat" None, Sample.alias_set)
  = (Sample.entry "cat" None, Sample.alias_set)
  ∧ Word.token Grammar.SPLIT_DATA_REGEX "2"
      (Sample.entry "cat" None, Sample.alias_set)
    = (Sample.entry "cat" None, Sample.alias_set)
  ∧ Word.token Grammar.SPLIT_DATA_REGEX "x1"
      (Sample.entry "cat" None, Sample.alias_set)
    = (Sample.entry "cat" None, Sample.alias_set).
Proof.
  split; [|split].
  - apply token_ignored; [reflexivity|]. right; left. vm_compute. reflexivity.
  - apply token_ignored; [reflexivity|]. right; right. vm_compute. reflexivity.
  - apply token_ignored; [reflexivity|]. left. reflexivity.
Defined.

Lemma ph_registers_one (value : string) (st : Word.t * Aff.t) :
  length (Aff.REP (Word.ph value st).2) = S (length (Aff.REP st.2)).
Proof.
  destruct st as [w aff]. unfold Word.ph.
  destruct (JS.endsWith value "*").
  { simpl. rewrite length_app. simpl. lia. }
  destruct (JS.includes value "->") eqn:Hinc.
  - destruct (split_includes "->" value ltac:(done) Hinc)
      as (a & b & rest & ->).
    simpl. rewrite length_app. simpl. lia.
  - simpl. rewrite length_app. simpl. lia.
Qed.

Lemma token_registers (SPLIT_DATA_REGEX : string → option (string * string))
    (tok : string) (st : Word.t * Aff.t) :
  length (Aff.REP (Word.token SPLIT_DATA_REGEX tok st).2)
  = (length (Aff.REP st.2)
     + if is_ph SPLIT_DATA_REGEX tok then 1 else 0)%nat.
Proof.
  unfold Word.token, is_ph.
  destruct (SPLIT_DATA_REGEX tok) as [[key value]|].
  - destruct (String.eqb key "ph").
    + rewrite ph_registers_one. simpl. lia.
    + simpl. lia.
  - destruct (JS.test_digits tok); [|lia].
    destruct (JS.array_get _ _); simpl; lia.
Qed.

(** X21. Every [ph:] token of a data segment registers exactly one
    replacement pattern, whatever its value, and no other token registers
    any: [REP] grows by the number of [ph:] tokens. *)
Theorem ph_tokens_register
    (SPLIT_DATA_REGEX : string → option (string * string))
    (kvs : list string) (st : Word.t * Aff.t) :
  length (Aff.REP (Word.tokens SPLIT_DATA_REGEX kvs st).2)
  = (length (Aff.REP st.2)
     + length (List.filter (is_ph SPLIT_DATA_REGEX) kvs))%nat.
Proof.
  unfold Word.tokens. revert st.
  induction kvs as [|kv kvs IH]; intros st; simpl; [lia|].
  rewrite IH, token_registers.
  destruct (is_ph SPLIT_DATA_REGEX kv); simpl; lia.
Qed.

(** What a token does to the alternate spellings: a plain [ph:] token
    adds its value, any other token leaves them. *)
Lemma token_altSpellings
    (SPLIT_DATA_REGEX : string → option (string * string))
    (tok : string) (st : Word.t * Aff.t) :
  let alt' := Word.altSpellings (Word.token SPLIT_DATA_REGEX tok st).1 in
  (∃ v, plain_ph SPLIT_DATA_REGEX tok v
        ∧ alt' = Some (default ∅ (Word.altSpellings st.1) ∪ {[v]}))
  ∨ ((∀ v, ¬ plain_ph SPLIT_DATA_REGEX tok v)
     ∧ alt' = Word.altSpellings st.1).
Proof.
  cbn zeta. unfold Word.token, plain_ph.
  destruct (SPLIT_DATA_REGEX tok) as [[key value]|] eqn:Htok.
  - destruct (data_add_head value key value st.1) as (_ & _ & _ & Halt).
    destruct (String.eqb_spec key "ph") as [->|Hkey].
    + unfold Word.ph.
      destruct (JS.endsWith value "*") eqn:Hstar.
      { right. split; [|done]. intros v ([= <-] & ? & _). congruence. }
      destruct (JS.includes value "->") eqn:Hinc.
      * right. split; [intros v ([= <-] & _ & ?); congruence|].
        by destruct (JS.split value "->") as [|? [|? ?]].
      * left. exists value. simpl. by rewrite Halt.
    + right. split; [|done]. intros v ([= ? _] & _). done.
  - right. split; [by intros v [? _]|].
    destruct (JS.test_digits tok); [|done].
    destruct (JS.array_get _ _); [|done]. simpl.
    apply (data_adds_head tok (for_in_keys a) st.1).
Qed.

(** X22. After the data tokens, the alternate spellings are those the
    word had and the values of the plain [ph:] tokens (no final star, no
    arrow), and nothing else; the set stays absent exactly when it was
    absent and the segment has no plain [ph:] token. *)
Theorem altSpellings_of_tokens
    (SPLIT_DATA_REGEX : string → option (string * string))
    (kvs : list string) (st : Word.t * Aff.t) :
  let alt' := Word.altSpellings (Word.tokens SPLIT_DATA_REGEX kvs st).1 in
  (∀ v, v ∈ default ∅ alt' ↔
        v ∈ default ∅ (Word.altSpellings st.1)
        ∨ ∃ tok, tok ∈ kvs ∧ plain_ph SPLIT_DATA_REGEX tok v)
  ∧ (alt' = None ↔
     Word.altSpellings st.1 = None
     ∧ ∀ tok v, tok ∈ kvs → ¬ plain_ph SPLIT_DATA_REGEX tok v).
Proof.
  cbn zeta. unfold Word.tokens. revert st.
  induction kvs as [|kv kvs IH]; intros st; simpl.
  - split.
    + intros v. split; [by left|]. by intros [?|(? & ?%elem_of_nil & _)].
    + split; [|by intros [? _]]. intros ->. split; [done|].
      by intros ? ? ?%elem_of_nil.
  - destruct (IH (Word.token SPLIT_DATA_REGEX kv st)) as [IH1 IH2].
    destruct (token_altSpellings SPLIT_DATA_REGEX kv st)
      as [(v0 & Hv0 & Halt)|[Hno Halt]]; cbn zeta in Halt.
    + split.
      * intros v. rewrite IH1, Halt. simpl.
        rewrite elem_of_union, elem_of_singleton. split.
        -- intros [[?| ->]|(tok & ? & ?)]; [by left| |].
           ++ right. exists kv. split; [apply list_elem_of_here|done].
           ++ right. exists tok. split; [by apply list_elem_of_further|done].
        -- intros [?|(tok & [->|?]%elem_of_cons & Hp)].
           ++ by left; left.
           ++ left; right. destruct Hv0 as [Hv0 _], Hp as [Hp _].
              congruence.
           ++ right. by exists tok.
      * rewrite IH2, Halt. split; [by intros [? _]|].
        intros [_ H]. exfalso. apply (H kv v0); [apply list_elem_of_here|done].
    + split.
      * intros v. rewrite IH1, Halt. split.
        -- intros [?|(tok & ? & ?)]; [by left|].
           right. exists tok. split; [by apply list_elem_of_further|done].
        -- intros [?|(tok & [->|?]%elem_of_cons & Hp)]; [by left| |].
           ++ by destruct (Hno v).
           ++ right. by exists tok.
      * rewrite IH2, Halt. split.
        -- intros [? H]. split; [done|].
           intros tok v [->|?]%elem_of_cons; [apply Hno|by apply H].
        -- intros [? H]. split; [done|].
           intros tok v ?. apply H. by apply list_elem_of_further.
Qed.

(** ** The [Word] constructor: what [data] holds in the end *)

(** The reference and the store that lines 70 to 72 leave. *)
Lemma data_add_unfold (k_get k_set v : string) (w : Word.t) :
  ∃ l σ,
    match default ∅ (Word.data w) !! k_get with
    | Some l0 => l = l0 ∧ σ = Word.sets w
    | None => l = length (Word.sets w) ∧ σ = Word.sets w ++ [∅]
    end
    ∧ Word.data (Word.data_add k_get k_set v w)
      = Some (<[k_set := l]> (default ∅ (Word.data w)))
    ∧ Word.sets (Word.data_add k_get k_set v w)
      = alter (λ s, s ∪ {[v]}) l σ.
Proof.
  unfold Word.data_add.
  destruct (default ∅ (Word.data w) !! k_get) as [l0|]; simpl; eauto 6.
Qed.

Lemma data_add_wf (k_get k_set v : string) (w : Word.t) :
  data_wf w → data_wf (Word.data_add k_get k_set v w).
Proof.
  intros Hwf k l.
  destruct (data_add_unfold k_get k_set v w) as (l0 & σ & Hl & -> & ->).
  simpl. rewrite length_alter.
  assert (length (Word.sets w) ≤ length σ ∧ l0 < length σ)%nat as [Hlen Hl0].
  { destruct (default ∅ (Word.data w) !! k_get) eqn:E; destruct Hl as [-> ->].
    - split; [done|]. by eapply Hwf.
    - rewrite length_app. simpl. lia. }
  destruct (decide (k = k_set)) as [->|Hne].
  - rewrite lookup_insert_eq. by intros [= <-].
  - rewrite lookup_insert_ne by done. intros H%Hwf. lia.
Qed.

(** The key written holds the value added. *)
Lemma data_add_has (k_get k_set v : string) (w : Word.t) :
  data_wf w → data_has (Word.data_add k_get k_set v w) k_set v.
Proof.
  intros Hwf. unfold data_has, Word.data_get.
  destruct (data_add_unfold k_get k_set v w) as (l0 & σ & Hl & -> & ->).
  simpl. rewrite lookup_insert_eq. simpl. rewrite list_lookup_alter_eq.
  assert (is_Some (σ !! l0)) as [s Hs].
  { apply lookup_lt_is_Some.
    destruct (default ∅ (Word.data w) !! k_get) eqn:E; destruct Hl as [-> ->].
    - by eapply Hwf.
    - rewrite length_app. simpl. lia. }
  rewrite Hs. simpl. eexists. split; [done|].
  apply elem_of_union_r, elem_of_singleton_2. done.
Qed.

(** A key that is not written, or that is written with the set found
    under itself, keeps what it held: sets only grow. *)
Lemma data_add_keeps (k_get k_set x k v : string) (w : Word.t) :
  data_wf w → data_has w k v → k_set ≠ k ∨ k_get = k →
  data_has (Word.data_add k_get k_set x w) k v.
Proof.
  intros Hwf (s & Hget & Hv) Hcase. unfold data_has, Word.data_get in *.
  destruct (Word.data w) as [d|] eqn:Hd; [|done]. simpl in Hget.
  destruct (d !! k) as [l|] eqn:Hk; [|done]. simpl in Hget.
  destruct (data_add_unfold k_get k_set x w) as (l0 & σ & Hl & -> & ->).
  rewrite Hd in *. simpl in *.
  assert (l < length (Word.sets w))%nat as Hlt by (by eapply lookup_lt_Some).
  assert (σ !! l = Some s) as Hσ.
  { destruct (d !! k_get); destruct Hl as [_ ->]; [done|].
    by rewrite lookup_app_l. }
  assert (<[k_set := l0]> d !! k = Some l) as ->.
  { destruct (decide (k_set = k)) as [->|Hne].
    - destruct Hcase as [?| ->]; [done|].
      rewrite Hk in Hl. destruct Hl as [-> _]. apply lookup_insert_eq.
    - by rewrite lookup_insert_ne. }
  simpl. rewrite list_lookup_alter. case_decide.
  - subst. rewrite Hσ. simpl. eexists. split; [done|]. by apply elem_of_union_l.
  - rewrite Hσ. eauto.
Qed.

Lemma data_adds_keep (tok k v : string) (strs : list string) (w : Word.t) :
  data_wf w → data_has w k v →
  let w' := foldl (λ w str, Word.data_add tok tok str w) w strs in
  data_wf w' ∧ data_has w' k v.
Proof.
  cbn zeta. revert w. induction strs as [|x strs IH]; intros w Hwf Hhas; simpl.
  - done.
  - apply IH; [by apply data_add_wf|].
    apply data_add_keeps; [done|done|].
    destruct (decide (tok = k)); tauto.
Qed.

Lemma data_adds_wf (tok : string) (strs : list string) (w : Word.t) :
  data_wf w → data_wf (foldl (λ w str, Word.data_add tok tok str w) w strs).
Proof.
  revert w. induction strs as [|x strs IH]; intros w Hwf; simpl; [done|].
  by apply IH, data_add_wf.
Qed.

Lemma ph_data (value k v : string) (st : Word.t * Aff.t) :
  (data_wf st.1 → data_wf (Word.ph value st).1)
  ∧ (data_has st.1 k v → data_has (Word.ph value st).1 k v).
Proof.
  destruct (ph_frame value st) as (_ & _ & _ & Hd & Hs & _).
  unfold data_wf, data_has, Word.data_get. rewrite Hd, Hs. done.
Qed.

Lemma token_wf (SPLIT_DATA_REGEX : string → option (string * string))
    (tok : string) (st : Word.t * Aff.t) :
  data_wf st.1 → data_wf (Word.token SPLIT_DATA_REGEX tok st).1.
Proof.
  intros Hwf. unfold Word.token.
  destruct (SPLIT_DATA_REGEX tok) as [[key value]|].
  - destruct (String.eqb key "ph").
    + apply (ph_data value "" ""). by apply data_add_wf.
    + by apply data_add_wf.
  - destruct (JS.test_digits tok); [|done].
    destruct (JS.array_get _ _); [|done]. by apply data_adds_wf.
Qed.

(** A token with another key keeps what a key holds. *)
Lemma token_keeps (SPLIT_DATA_REGEX : string → option (string * string))
    (tok k v : string) (st : Word.t * Aff.t) :
  data_wf st.1 → data_has st.1 k v →
  (∀ v', SPLIT_DATA_REGEX tok ≠ Some (k, v')) →
  data_has (Word.token SPLIT_DATA_REGEX tok st).1 k v.
Proof.
  intros Hwf Hhas Hkey. unfold Word.token.
  destruct (SPLIT_DATA_REGEX tok) as [[key value]|].
  - assert (key ≠ k) as Hne by (intros ->; by apply (Hkey value)).
    assert (data_has (Word.data_add value key value st.1) k v) as H
      by (apply data_add_keeps; [done|done|by left]).
    destruct (String.eqb key "ph"); [|done]. by apply ph_data.
  - destruct (JS.test_digits tok); [|done].
    destruct (JS.array_get _ _); [|done]. by apply data_adds_keep.
Qed.

(** A [key:value] token leaves the value under the key. *)
Lemma token_records (SPLIT_DATA_REGEX : string → option (string * string))
    (tok k v : string) (st : Word.t * Aff.t) :
  data_wf st.1 → SPLIT_DATA_REGEX tok = Some (k, v) →
  data_has (Word.token SPLIT_DATA_REGEX tok st).1 k v.
Proof.
  intros Hwf Htok. unfold Word.token. rewrite Htok.
  assert (data_has (Word.data_add v k v st.1) k v) as H
    by (by apply data_add_has).
  destruct (String.eqb k "ph"); [|done]. by apply ph_data.
Qed.

Lemma tokens_wf (SPLIT_DATA_REGEX : string → option (string * string))
    (kvs : list string) (st : Word.t * Aff.t) :
  data_wf st.1 → data_wf (Word.tokens SPLIT_DATA_REGEX kvs st).1.
Proof.
  unfold Word.tokens. revert st.
  induction kvs as [|kv kvs IH]; intros st Hwf; simpl; [done|].
  by apply IH, token_wf.
Qed.

Lemma tokens_keep (SPLIT_DATA_REGEX : string → option (string * string))
    (kvs : list string) (k v : string) (st : Word.t * Aff.t) :
  data_wf st.1 → data_has st.1 k v →
  (∀ t v', t ∈ kvs → SPLIT_DATA_REGEX t ≠ Some (k, v')) →
  data_has (Word.tokens SPLIT_DATA_REGEX kvs st).1 k v.
Proof.
  unfold Word.tokens. revert st.
  induction kvs as [|kv kvs IH]; intros st Hwf Hhas Hkey; simpl; [done|].
  apply IH; [by apply token_wf| |].
  - apply token_keeps; [done|done|]. intros v'. apply Hkey, list_elem_of_here.
  - intros t v' Ht. by apply Hkey, list_elem_of_further.
Qed.

(** X23. In the word of a line, [data] holds under each key the value of
    the last [key:value] token with that key: for a data segment whose
    tokens are [pre], then a token [k:v], then tokens [post] none of
    which has the key [k], [word.data.get(k).has(v)] is true. *)
Theorem last_value_recorded
    (SPLIT_WORD_REGEX :
       string → option (string * option string * option string))
    (SPLIT_DATA_REGEX : string → option (string * string))
    (split : string → list string) (line : string) (aff : Aff.t)
    (stm dat : string) (fl : option string) (pre post : list string)
    (tok k v : string) :
  SPLIT_WORD_REGEX (JS.replaceAll line "\/" "_||_")
    = Some (stm, fl, Some dat) →
  dat ≠ "" →
  split dat = pre ++ tok :: post →
  SPLIT_DATA_REGEX tok = Some (k, v) →
  (∀ t v', t ∈ post → SPLIT_DATA_REGEX t ≠ Some (k, v')) →
  ∃ w aff',
    Word.new SPLIT_WORD_REGEX SPLIT_DATA_REGEX split line aff
      = Word.Ok (w, aff')
    ∧ data_has w k v.
Proof.
  intros Hline Hdat Hsplit Htok Hpost. unfold Word.new. rewrite Hline.
  destruct dat as [|c dat]; [done|]. cbn [truthy]. rewrite Hsplit.
  match goal with
  | |- context [Word.tokens _ _ ?st] => set (st0 := st)
  end.
  assert (data_wf st0.1) as Hwf0 by (intros k0 l0; simpl; by rewrite lookup_empty).
  unfold Word.tokens. rewrite foldl_app. cbn [foldl].
  fold (Word.tokens SPLIT_DATA_REGEX pre st0).
  set (st1 := Word.tokens SPLIT_DATA_REGEX pre st0).
  fold (Word.tokens SPLIT_DATA_REGEX post (Word.token SPLIT_DATA_REGEX tok st1)).
  assert (data_wf st1.1) as Hwf1 by (by apply tokens_wf).
  pose proof (tokens_keep SPLIT_DATA_REGEX post k v
                (Word.token SPLIT_DATA_REGEX tok st1)
                (token_wf _ _ _ Hwf1) (token_records _ _ _ _ _ Hwf1 Htok)
                Hpost) as Hhas.
  destruct (Word.tokens SPLIT_DATA_REGEX post _) as [w aff'].
  by exists w, aff'.
Qed.

Lemma last_value_recorded_witness :
  ∃ w aff', Word_new "cat is:a is:b po:noun" Sample.plain = Word.Ok (w, aff')
            ∧ data_has w "is" "b".
Proof.
  apply (last_value_recorded Grammar.SPLIT_WORD_REGEX Grammar.SPLIT_DATA_REGEX
           Grammar.split "cat is:a is:b po:noun" Sample.plain
           "cat" "is:a is:b po:noun" None ["is:a"] ["po:noun"] "is:b"
           "is" "b" eq_refl ltac:(done) eq_refl eq_refl).
  intros t v' ->%list_elem_of_singleton. vm_compute. discriminate.
Defined.

(** ** The sample dictionary *)

Example sample_homonyms :
  Dic.homonyms SampleDic.lower SampleDic.dic "cat" false = [0%nat; 2%nat]
  ∧ Dic.homonyms SampleDic.lower SampleDic.dic "cat" true
    = [0%nat; 2%nat; 1%nat]
  ∧ Dic.homonyms SampleDic.lower SampleDic.dic "Cat" false = [1%nat]
  ∧ Dic.homonyms SampleDic.lower SampleDic.dic "dog" true = [].
Proof. by vm_compute. Qed.

Example sample_hasFlag :
  Dic.hasFlag SampleDic.obj SampleDic.lower SampleDic.dic "cat" (Some "A")
    false = true
  ∧ Dic.hasFlag SampleDic.obj SampleDic.lower SampleDic.dic "cat" (Some "A")
      true = false
  ∧ Dic.hasFlag SampleDic.obj SampleDic.lower SampleDic.dic "dog" (Some "A")
      true = false.
Proof. by vm_compute. Qed.

Example sample_remove :
  Dic.words (Dic.remove SampleDic.lower SampleDic.dic "cat") = []
  ∧ Dic.homonyms SampleDic.lower
      (Dic.remove SampleDic.lower SampleDic.dic "cat") "Cat" false = [1%nat]
  ∧ Dic.words (Dic.remove SampleDic.lower SampleDic.dic "Cat")
    = [0%nat; 2%nat].
Proof. by vm_compute. Qed.

Lemma remove_unknown_witness :
  Dic.words (Dic.remove SampleDic.lower SampleDic.dic "dog")
  = Dic.words SampleDic.dic
  ∧ ∀ s' ic,
      Dic.homonyms SampleDic.lower
        (Dic.remove SampleDic.lower SampleDic.dic "dog") s' ic
      = Dic.homonyms SampleDic.lower SampleDic.dic s' ic.
Proof.
  apply (remove_unknown SampleDic.lower SampleDic.dic "dog"). reflexivity.
Defined.

(** ** The [Word] constructor: the [ph:] tokens of a line *)

Lemma tokens_app (SPLIT_DATA_REGEX : string → option (string * string))
    (a b : list string) (st : Word.t * Aff.t) :
  Word.tokens SPLIT_DATA_REGEX (a ++ b) st
  = Word.tokens SPLIT_DATA_REGEX b (Word.tokens SPLIT_DATA_REGEX a st).
Proof. unfold Word.tokens. apply foldl_app. Qed.








(** With more than one arrow the pattern is made of the first two
    pieces. *)
Example ph_two_arrows :
  (r ← Sample.aff_of (Word_new "abc ph:a->b->c" Sample.plain);
   Some (Aff.REP r))
  = Some [{| rep_from := "a"; rep_to := "b" |}].
Proof. by vm_compute. Qed.

(** ** The [Word] constructor: a number that names a [Set] alias *)

(** In a line whose rule set has [Set] aliases, a number that names one
    contributes nothing: the constructor returns what it returns for the
    tokens without it. *)
Lemma new_alias_set
    (SPLIT_WORD_REGEX :
       string → option (string * option string * option string))
    (SPLIT_DATA_REGEX : string → option (string * string))
    (split : string → list string) (line : string) (aff : Aff.t)
    (stm dat : string) (fl : option string) (pre post : list string)
    (tok : string) (components : list string) :
  SPLIT_WORD_REGEX (JS.replaceAll line "\/" "_||_")
    = Some (stm, fl, Some dat) →
  dat ≠ "" →
  split dat = pre ++ tok :: post →
  SPLIT_DATA_REGEX tok = None →
  JS.test_digits tok = true →
  JS.array_get (Aff.AM aff) (JS.parseInt tok - 1)
    = Some (AliasSet components) →
  Word.new SPLIT_WORD_REGEX SPLIT_DATA_REGEX split line aff
  = Word.new SPLIT_WORD_REGEX SPLIT_DATA_REGEX (λ _, pre ++ post) line aff.
Proof.
  intros Hline Hdat Hsplit Hnone Hdig Halias. unfold Word.new.
  rewrite Hline. destruct dat as [|c dat]; [done|]. cbn [truthy].
  rewrite Hsplit, !tokens_app.
  match goal with
  | |- context [Word.tokens _ pre ?st] =>
      pose proof (tokens_frame SPLIT_DATA_REGEX pre st) as Hframe;
      cbn zeta in Hframe;
      destruct (Word.tokens SPLIT_DATA_REGEX pre st) as [w1 aff1]
  end.
  destruct Hframe as (_ & _ & _ & (_ & _ & _ & _ & _ & _ & HAM)).
  simpl in HAM. rewrite <- HAM in Halias.
  change (Word.tokens SPLIT_DATA_REGEX (tok :: post) (w1, aff1))
    with (Word.tokens SPLIT_DATA_REGEX post
            (Word.token SPLIT_DATA_REGEX tok (w1, aff1))).
  by rewrite (token_alias_set _ _ _ _ _ Hnone Hdig Halias).
Qed.
